(** * The prime sieve of [programs/compute_primes.c]

    A shallow embedding of [compute_primes] and of the C operations it is
    built from.  The function is stateful (it allocates, fills, reads and
    frees one array and prints one line), so the embedding threads an explicit
    [world] through a small state-and-error monad:

    - [int] is the 32-bit signed type; an operation whose mathematical result
      leaves the range is undefined behaviour, recorded as the outcome
      [Undefined SignedOverflow];
    - the array [is_prime] is a list of cells; a cell that [malloc] handed out
      and that nobody wrote yet is [Indeterminate];
    - every read and write of the array is appended to the [accesses] log, and
      every [printf] to [stdout];
    - whether [malloc] grants a request is decided by the environment, the
      function [heap_grants]. *)

From Stdlib Require Import ZArith QArith Lia Bool String Ascii.
From stdpp Require Import base list list_numbers.

Local Open Scope Z_scope.

(** ** Machine integers *)

Definition INT_MIN : Z := -2147483648.
Definition INT_MAX : Z := 2147483647.

Definition in_int (z : Z) : bool := (INT_MIN <=? z) && (z <=? INT_MAX).

(** [size_t] is the 64-bit unsigned type of the targets the notes compile for
    (x86-64, AArch64, RV64); conversion and product wrap around. *)
Definition SIZE_MODULUS : Z := 2 ^ 64.
Definition size_t_of_int (z : Z) : Z := z mod SIZE_MODULUS.
Definition size_t_mul (a b : Z) : Z := (a * b) mod SIZE_MODULUS.
Definition sizeof_bool : Z := 1.

(** The first bound for which [compute_primes] overflows: 46340 squared. *)
Definition SQUARE_BOUND : Z := 2147395600.

(** ** The world *)

Inductive cell : Type :=
| Indeterminate
| Flag (b : bool).

Inductive access : Type :=
| Read (i : Z)
| Write (i : Z) (b : bool).

Definition index_of (e : access) : Z :=
  match e with Read i => i | Write i _ => i end.

(** [is_prime] is what the local pointer of that name refers to: [None] for a
    null or released pointer, otherwise the cells of the block. *)
Record world : Type := World {
  is_prime : option (list cell);
  accesses : list access;
  stdout : list string
}.

Definition initial_world : world := World None [] [].

Inductive undefined : Type :=
| SignedOverflow
| InvalidPointer
| OutOfBounds (i : Z)
| IndeterminateRead (i : Z).

Inductive result (A : Type) : Type :=
| Done (a : A) (w : world)
| Undefined (u : undefined) (w : world)
| OutOfFuel.

Arguments Done {A} a w.
Arguments Undefined {A} u w.
Arguments OutOfFuel {A}.

(** ** The monad *)

Definition M (A : Type) : Type := world -> result A.

Definition ret {A : Type} (a : A) : M A := fun w => Done a w.

Definition bind {A B : Type} (m : M A) (k : A -> M B) : M B :=
  fun w =>
    match m w with
    | Done a w' => k a w'
    | Undefined u w' => Undefined u w'
    | OutOfFuel => OutOfFuel
    end.

Definition out_of_fuel {A : Type} : M A := fun _ => OutOfFuel.

Declare Scope c_scope.
Notation "x <- m ;; k" := (bind m (fun x => k))
  (at level 100, m at next level, right associativity) : c_scope.
Notation "m ;; k" := (bind m (fun _ => k))
  (at level 100, right associativity) : c_scope.
Local Open Scope c_scope.

(** ** The C operations used by [compute_primes] *)

Definition int_result (z : Z) : M Z :=
  fun w => if in_int z then Done z w else Undefined SignedOverflow w.

Definition add_int (a b : Z) : M Z := int_result (a + b).
Definition mul_int (a b : Z) : M Z := int_result (a * b).

Section Heap.

(** The environment: does [malloc] grant a request of that many bytes? *)
Variable heap_grants : Z -> bool.

(** [malloc] sets the pointer and answers whether it is non-null.  A granted
    block of [bytes] bytes holds [bytes / sizeof_bool] cells, none written. *)
Definition malloc (bytes : Z) : M bool :=
  fun w =>
    if heap_grants bytes
    then Done true
           (World (Some (replicate (Z.to_nat (bytes / sizeof_bool)) Indeterminate))
                  (accesses w) (stdout w))
    else Done false (World None (accesses w) (stdout w)).

Definition in_block (a : list cell) (i : Z) : bool :=
  (0 <=? i) && (i <? Z.of_nat (length a)).

(** [is_prime[i] = b] *)
Definition store (i : Z) (b : bool) : M unit :=
  fun w =>
    match is_prime w with
    | None => Undefined InvalidPointer w
    | Some a =>
        if in_block a i
        then Done tt (World (Some (<[Z.to_nat i := Flag b]> a))
                            (accesses w ++ [Write i b]) (stdout w))
        else Undefined (OutOfBounds i) w
    end.

(** [is_prime[i]] as a value *)
Definition load (i : Z) : M bool :=
  fun w =>
    match is_prime w with
    | None => Undefined InvalidPointer w
    | Some a =>
        if in_block a i
        then match a !! Z.to_nat i with
             | Some (Flag b) =>
                 Done b (World (is_prime w) (accesses w ++ [Read i]) (stdout w))
             | _ => Undefined (IndeterminateRead i) w
             end
        else Undefined (OutOfBounds i) w
    end.

Definition free : M unit :=
  fun w => Done tt (World None (accesses w) (stdout w)).

Definition printf (s : string) : M unit :=
  fun w => Done tt (World (is_prime w) (accesses w) (stdout w ++ [s])).

Definition newline : string := String (ascii_of_nat 10) EmptyString.
Definition end_program : string := ("End Program" ++ newline)%string.

(** ** The three loops *)

(** [for (int i = 2; i <= limit; i++) is_prime[i] = true;] entered at [i]. *)
Fixpoint init_loop (fuel : nat) (limit i : Z) : M unit :=
  match fuel with
  | O => out_of_fuel
  | S fuel' =>
      if i <=? limit
      then store i true ;;
           i' <- add_int i 1 ;;
           init_loop fuel' limit i'
      else ret tt
  end.

(** [for (int i = p * p; i <= limit; i += p) is_prime[i] = false;] entered
    at [i]. *)
Fixpoint strike_loop (fuel : nat) (limit p i : Z) : M unit :=
  match fuel with
  | O => out_of_fuel
  | S fuel' =>
      if i <=? limit
      then store i false ;;
           i' <- add_int i p ;;
           strike_loop fuel' limit p i'
      else ret tt
  end.

(** [for (int p = 2; p * p <= limit; p++) if (is_prime[p]) ...] entered at
    [p]; [inner] is the fuel of each inner loop. *)
Fixpoint sieve_loop (inner fuel : nat) (limit p : Z) : M unit :=
  match fuel with
  | O => out_of_fuel
  | S fuel' =>
      pp <- mul_int p p ;;
      if pp <=? limit
      then c <- load p ;;
           (if c : bool
            then i0 <- mul_int p p ;; strike_loop inner limit p i0
            else ret tt) ;;
           p' <- add_int p 1 ;;
           sieve_loop inner fuel' limit p'
      else ret tt
  end.

(** Every loop counter grows by at least one per iteration and stops above
    [limit], so this many iterations are never used up. *)
Definition fuel_for (limit : Z) : nat := S (Z.to_nat limit).

(** ** [compute_primes] and its stages *)

(** [bool *is_prime = malloc((limit + 1) * sizeof(bool));] *)
Definition allocate (limit : Z) : M bool :=
  n <- add_int limit 1 ;;
  malloc (size_t_mul (size_t_of_int n) sizeof_bool).

Definition initialise (limit : Z) : M unit :=
  init_loop (fuel_for limit) limit 2.

Definition eliminate (limit : Z) : M unit :=
  sieve_loop (fuel_for limit) (fuel_for limit) limit 2.

Definition compute_primes (limit : Z) : M unit :=
  allocated <- allocate limit ;;
  if allocated : bool
  then initialise limit ;;
       eliminate limit ;;
       free ;;
       printf end_program
  else ret tt.

(** The function stopped right after the initialisation loop, and right after
    the elimination loop (before [free]); the answer is whether the pointer
    was non-null. *)
Definition until_initialised (limit : Z) : M bool :=
  allocated <- allocate limit ;;
  if allocated : bool
  then initialise limit ;; ret true
  else ret false.

Definition until_eliminated (limit : Z) : M bool :=
  allocated <- allocate limit ;;
  if allocated : bool
  then initialise limit ;; eliminate limit ;; ret true
  else ret false.

(** [int main()]: the exit status, if the program gets that far. *)
Definition main : M Z :=
  compute_primes 1000000 ;; ret 0.

End Heap.

(** ** Reading a marking array *)

Definition candidate (a : list cell) (i : Z) : bool :=
  match a !! Z.to_nat i with
  | Some (Flag true) => true
  | _ => false
  end.

(** The indices of [2..limit] still marked as candidates. *)
Definition candidates (a : list cell) (limit : Z) : list Z :=
  filter (fun i => candidate a i = true) (seqZ 2 (limit - 1)).

Definition marking {A : Type} (r : result A) : option (list cell) :=
  match r with
  | Done _ w => is_prime w
  | _ => None
  end.

(** Ground truth by trial division. *)
Definition trial_division (n : Z) : bool :=
  (2 <=? n) && forallb (fun d => negb (n mod d =? 0)) (seqZ 2 (n - 2)).

Definition primes_upto (limit : Z) : list Z :=
  filter (fun i => trial_division i = true) (seqZ 2 (limit - 1)).

Definition always : Z -> bool := fun _ => true.
Definition never : Z -> bool := fun _ => false.

(** The number of bytes [compute_primes limit] asks [malloc] for. *)
Definition request (limit : Z) : Z :=
  size_t_mul (size_t_of_int (limit + 1)) sizeof_bool.

(** What the caller receives from a call that returns. *)
Definition returned {A : Type} (r : result A) : option A :=
  match r with
  | Done a _ => Some a
  | _ => None
  end.

(** The same world, with earlier log entries in front. *)
Definition relog (acc : list access) (out : list string) (w : world) : world :=
  World (is_prime w) (acc ++ accesses w) (out ++ stdout w).

Definition relog_result {A : Type} (acc : list access) (out : list string)
    (r : result A) : result A :=
  match r with
  | Done a w => Done a (relog acc out w)
  | Undefined u w => Undefined u (relog acc out w)
  | OutOfFuel => OutOfFuel
  end.

(** Code that appends to the logs and never reads them. *)
Definition framed {A : Type} (m : M A) : Prop :=
  forall acc out w, m (relog acc out w) = relog_result acc out (m w).

(** ** Specifications of monadic code

    [wp ovf m w Q]: run from [w], the code [m] either finishes in a world
    satisfying [Q], or stops on a signed overflow, and that only if [ovf]
    holds.  Running out of fuel and every other undefined behaviour are
    excluded. *)
Definition wp {A : Type} (ovf : Prop) (m : M A) (w : world)
    (Q : A -> world -> Prop) : Prop :=
  match m w with
  | Done a w' => Q a w'
  | Undefined SignedOverflow _ => ovf
  | _ => False
  end.

(** The cells of [2..limit] are flags, and a flag is still set exactly when
    no [d] of [2..p-1] with [d * d <= i] divides [i]: the state of the array
    when the outer loop reaches [p]. *)
Definition sieved (limit p : Z) (a : list cell) : Prop :=
  Z.of_nat (length a) = limit + 1 /\
  forall i, 2 <= i <= limit ->
    exists b, a !! Z.to_nat i = Some (Flag b) /\
      (b = true <-> forall d, 2 <= d < p -> d * d <= i -> ~ (d | i)).

Definition in_range (limit : Z) (e : access) : Prop :=
  2 <= index_of e <= limit.

(** The world in which the elimination loop of the bound 10 starts. *)
Definition initialised_10 : world :=
  World (Some (Indeterminate :: Indeterminate :: replicate 9 (Flag true))) [] [].

(** ** Reading an access log *)

(** The indices read, in the order of the reads. *)
Fixpoint reads (t : list access) : list Z :=
  match t with
  | [] => []
  | Read i :: t' => i :: reads t'
  | Write _ _ :: t' => reads t'
  end.

(** What the elimination pass may log: the read of a flag [p] with
    [p * p <= limit], or the clearing of a multiple of some [p >= 2] that
    lies between [p * p] and [limit]. *)
Definition elimination (limit : Z) (e : access) : Prop :=
  match e with
  | Read p => 2 <= p /\ p * p <= limit
  | Write i b => b = false /\ exists p, 2 <= p /\ p * p <= i <= limit /\ (p | i)
  end.

(** The same, said with primes: only composite indices are cleared. *)
Definition clears_composite (limit : Z) (e : access) : Prop :=
  match e with
  | Read p => 2 <= p /\ p * p <= limit
  | Write i b => b = false /\ 4 <= i <= limit /\ ~ Z.prime i
  end.

(** The marking a completed elimination pass leaves for the bound [limit]. *)
Definition final_marking (limit : Z) : list cell :=
  Indeterminate :: Indeterminate ::
  map (fun i => Flag (trial_division i)) (seqZ 2 (limit - 1)).

(** The world at the end of the elimination pass of the bound 10, started in
    [initial_world]. *)
Definition eliminated_10 : world :=
  World
    (Some [Indeterminate; Indeterminate; Flag true; Flag true; Flag false;
           Flag true; Flag false; Flag true; Flag false; Flag false; Flag false])
    [Write 2 true; Write 3 true; Write 4 true; Write 5 true; Write 6 true;
     Write 7 true; Write 8 true; Write 9 true; Write 10 true;
     Read 2; Write 4 false; Write 6 false; Write 8 false; Write 10 false;
     Read 3; Write 9 false]
    [].

(** * The series of [programs/compute_pi.c]

    The second program sums the Leibniz series in [double] arithmetic.  The
    arithmetic of [double] belongs to the platform, so the embedding takes it
    as an interface: the three operations the program uses, the conversion of
    an integer value to [double], and the two literals.  The integer
    arithmetic is the program's own: [long long] is the 64-bit signed type,
    [int] the 32-bit one, and a result outside the range is an overflow. *)

Class Double (D : Type) : Type := {
  d_add : D -> D -> D;
  d_mul : D -> D -> D;
  d_div : D -> D -> D;
  d_of_Z : Z -> D;
  d_0_0 : D;
  d_4_0 : D
}.

Definition LLONG_MIN : Z := - 2 ^ 63.
Definition LLONG_MAX : Z := 2 ^ 63 - 1.

Inductive outcome (A : Type) : Type :=
| Returned (a : A)
| Overflowed
| Exhausted.

Arguments Returned {A} a.
Arguments Overflowed {A}.
Arguments Exhausted {A}.

Definition andthen {A B : Type} (m : outcome A) (k : A -> outcome B) : outcome B :=
  match m with
  | Returned a => k a
  | Overflowed => Overflowed
  | Exhausted => Exhausted
  end.

Definition long_long (z : Z) : outcome Z :=
  if (LLONG_MIN <=? z) && (z <=? LLONG_MAX) then Returned z else Overflowed.

Definition int (z : Z) : outcome Z :=
  if in_int z then Returned z else Overflowed.

(** What [printf] was called with. *)
Inductive printed (D : Type) : Type :=
| Text (s : string)
| Formatted (format : string) (v : D).

Arguments Text {D} s.
Arguments Formatted {D} format v.

Definition pi_prompt : string := "Enter the number of iterations: ".
Definition pi_format : string := ("Computed value of Pi: %.15f" ++ newline)%string.

(** [for (i = 0; i < n; i++) { pi += sign * 4.0 / (2 * i + 1); sign = -sign; }]
    entered at [i]; the answer is the final [i], [pi] and [sign]. *)
Fixpoint pi_loop {D : Type} `{Double D} (fuel : nat) (n i : Z) (pi : D) (sign : Z)
    : outcome (Z * D * Z) :=
  match fuel with
  | O => Exhausted
  | S fuel' =>
      if i <? n
      then andthen (long_long (2 * i)) (fun twice =>
           andthen (long_long (twice + 1)) (fun odd =>
           let pi' := d_add pi (d_div (d_mul (d_of_Z sign) d_4_0) (d_of_Z odd)) in
           andthen (int (- sign)) (fun sign' =>
           andthen (long_long (i + 1)) (fun i' =>
           pi_loop fuel' n i' pi' sign'))))
      else Returned (i, pi, sign)
  end.

(** [int main()] of [compute_pi.c]: what it printed and its exit status. *)
Definition pi_main {D : Type} `{Double D} : outcome (list (printed D) * Z) :=
  let n := 1000000 in
  andthen (pi_loop (S (Z.to_nat n)) n 0 d_0_0 1) (fun '(_, pi, _) =>
  Returned ([Text pi_prompt; Formatted pi_format pi], 0)).

(** The sign of the term of index [k], and the partial sum of [n] terms
    added from the first to the last. *)
Definition leibniz_sign (k : Z) : Z := if Z.even k then 1 else -1.

Definition leibniz_term {D : Type} `{Double D} (k : Z) : D :=
  d_div (d_mul (d_of_Z (leibniz_sign k)) d_4_0) (d_of_Z (2 * k + 1)).

Definition leibniz_from {D : Type} `{Double D} (pi : D) (i len : Z) : D :=
  fold_left (fun acc k => d_add acc (leibniz_term k)) (seqZ i len) pi.

Definition leibniz {D : Type} `{Double D} (n : Z) : D := leibniz_from d_0_0 0 n.

(** Exact rational arithmetic, one possible [double]. *)
Definition exact_double : Double Q :=
  {| d_add := Qplus; d_mul := Qmult; d_div := Qdiv;
     d_of_Z := inject_Z; d_0_0 := 0%Q; d_4_0 := 4%Q |}.

(** * Proofs *)

Section Rules.

Context {A B : Type}.

Lemma wp_ret ovf (a : A) w Q : Q a w -> wp ovf (ret a) w Q.
Proof. exact (fun H => H). Qed.

Lemma wp_bind ovf (m : M A) (k : A -> M B) w Q :
  wp ovf m w (fun a w' => wp ovf (k a) w' Q) -> wp ovf (bind m k) w Q.
Proof.
  unfold wp, bind. destruct (m w) as [a w'|u w'|]; auto.
Qed.

Lemma wp_mono (ovf ovf' : Prop) (m : M A) w (Q Q' : A -> world -> Prop) :
  wp ovf m w Q -> (ovf -> ovf') -> (forall a w', Q a w' -> Q' a w') ->
  wp ovf' m w Q'.
Proof.
  unfold wp. destruct (m w) as [a w'|[]|]; auto.
Qed.

Lemma wp_done (m : M A) w Q :
  wp False m w Q -> exists a w', m w = Done a w' /\ Q a w'.
Proof.
  unfold wp. destruct (m w) as [a w'|[]|]; try contradiction; eauto.
Qed.

Lemma wp_overflow (ovf : Prop) (m : M A) w Q :
  wp ovf m w Q -> (forall a w', Q a w' -> False) ->
  ovf /\ exists w', m w = Undefined SignedOverflow w'.
Proof.
  unfold wp. destruct (m w) as [a w'|[]|]; try contradiction; eauto.
  intros HQ H. destruct (H _ _ HQ).
Qed.

End Rules.

Lemma in_int_spec z : in_int z = true <-> INT_MIN <= z <= INT_MAX.
Proof. unfold in_int. rewrite andb_true_iff, !Z.leb_le. tauto. Qed.

Lemma wp_int_result (ovf : Prop) z w (Q : Z -> world -> Prop) :
  (INT_MIN <= z <= INT_MAX -> Q z w) ->
  (~ INT_MIN <= z <= INT_MAX -> ovf) ->
  wp ovf (int_result z) w Q.
Proof.
  intros HQ Hovf. unfold wp, int_result.
  destruct (in_int z) eqn:E.
  - apply HQ, in_int_spec, E.
  - apply Hovf. rewrite <- in_int_spec, E. discriminate.
Qed.

Lemma in_block_spec a i :
  in_block a i = true <-> 0 <= i < Z.of_nat (length a).
Proof. unfold in_block. rewrite andb_true_iff, Z.leb_le, Z.ltb_lt. tauto. Qed.

Lemma wp_store ovf i b w a (Q : unit -> world -> Prop) :
  is_prime w = Some a -> 0 <= i < Z.of_nat (length a) ->
  Q tt (World (Some (<[Z.to_nat i := Flag b]> a))
              (accesses w ++ [Write i b]) (stdout w)) ->
  wp ovf (store i b) w Q.
Proof.
  intros Ha Hi HQ. unfold wp, store. rewrite Ha.
  apply in_block_spec in Hi. rewrite Hi. exact HQ.
Qed.

Lemma wp_load ovf i b w a (Q : bool -> world -> Prop) :
  is_prime w = Some a -> 0 <= i -> a !! Z.to_nat i = Some (Flag b) ->
  Q b (World (Some a) (accesses w ++ [Read i]) (stdout w)) ->
  wp ovf (load i) w Q.
Proof.
  intros Ha Hi Hb HQ. unfold wp, load. rewrite Ha.
  assert (Hin : in_block a i = true).
  { apply in_block_spec. apply lookup_lt_Some in Hb. lia. }
  rewrite Hin, Hb. exact HQ.
Qed.

(** Reading a cell of an updated array, at integer indices. *)
Lemma lookup_insert_Z (a : list cell) i j c :
  0 <= i < Z.of_nat (length a) -> 0 <= j ->
  <[Z.to_nat i := c]> a !! Z.to_nat j =
  if j =? i then Some c else a !! Z.to_nat j.
Proof.
  intros Hi Hj. destruct (Z.eqb_spec j i) as [->|Hne].
  - apply list_lookup_insert_eq. lia.
  - apply list_lookup_insert_ne. lia.
Qed.

(** ** The initialisation loop *)

Lemma init_loop_wp fuel : forall limit i w a,
  is_prime w = Some a ->
  (i <= limit -> limit < Z.of_nat (length a)) ->
  0 <= i -> limit < INT_MAX ->
  (Z.to_nat (limit + 1 - i) < fuel)%nat ->
  wp False (init_loop fuel limit i) w (fun _ w' =>
    exists a', is_prime w' = Some a' /\ length a' = length a /\
      (forall j, 0 <= j -> a' !! Z.to_nat j =
         if (i <=? j) && (j <=? limit) then Some (Flag true)
         else a !! Z.to_nat j) /\
      accesses w' =
        accesses w ++ map (fun j => Write j true) (seqZ i (limit + 1 - i)) /\
      stdout w' = stdout w).
Proof.
  induction fuel as [|fuel IH]; intros limit i w a Ha Hlen Hi Hmax Hfuel; [lia|].
  cbn [init_loop]. destruct (Z.leb_spec i limit) as [Hle|Hgt].
  - apply wp_bind. eapply wp_store; [exact Ha | lia |].
    apply wp_bind. apply wp_int_result; [intros _ | unfold INT_MIN; lia].
    eapply wp_mono; [eapply IH with (a := <[Z.to_nat i := Flag true]> a) | tauto |].
    + reflexivity.
    + rewrite length_insert. lia.
    + lia.
    + exact Hmax.
    + lia.
    + cbn [is_prime accesses stdout]. intros _ w' (a' & Ha' & Hl & Hcells & Hacc & Hout).
      exists a'. split; [exact Ha'|]. split; [rewrite Hl; apply length_insert|].
      split; [|split; [|exact Hout]].
      * intros j Hj. rewrite (Hcells j Hj), lookup_insert_Z by lia.
        destruct (Z.leb_spec (i + 1) j), (Z.leb_spec i j), (Z.leb_spec j limit),
          (Z.eqb_spec j i); cbn; try reflexivity; lia.
      * rewrite Hacc, <- app_assoc. f_equal.
        rewrite (seqZ_cons i (limit + 1 - i)) by lia. cbn.
        do 2 f_equal. unfold Z.succ, Z.pred. f_equal. lia.
  - apply wp_ret. exists a. split; [exact Ha|]. split; [reflexivity|].
    split; [|split; [|reflexivity]].
    + intros j Hj. destruct (Z.leb_spec i j), (Z.leb_spec j limit); cbn;
        try reflexivity; lia.
    + rewrite seqZ_nil by lia. cbn. symmetry. apply app_nil_r.
Qed.

(** ** The inner loop *)

Lemma strike_step_cond i p j limit :
  0 < p -> j <> i ->
  (i + p <=? j) && (j <=? limit) && ((j - (i + p)) mod p =? 0) =
  (i <=? j) && (j <=? limit) && ((j - i) mod p =? 0).
Proof.
  intros Hp Hne.
  replace (j - (i + p)) with (j - i + (-1) * p) by ring.
  rewrite Z_mod_plus_full.
  destruct (Z.leb_spec (i + p) j), (Z.leb_spec i j), (Z.leb_spec j limit);
    cbn; try reflexivity; try lia.
  rewrite Z.mod_small by lia.
  symmetry. apply Z.eqb_neq. lia.
Qed.

Lemma strike_count limit i p :
  0 < p -> (limit - (i + p)) / p + 1 = (limit - i) / p.
Proof.
  intros Hp. replace (limit - (i + p)) with (limit - i + (-1) * p) by ring.
  rewrite Z.div_add by lia. ring.
Qed.

Lemma strike_loop_wp fuel : forall limit p i w a,
  is_prime w = Some a ->
  (i <= limit -> limit < Z.of_nat (length a)) ->
  0 <= i -> 0 < p ->
  (Z.to_nat (limit + 1 - i) < fuel)%nat ->
  wp (INT_MAX < limit + p) (strike_loop fuel limit p i) w (fun _ w' =>
    exists a', is_prime w' = Some a' /\ length a' = length a /\
      (forall j, 0 <= j -> a' !! Z.to_nat j =
         if (i <=? j) && (j <=? limit) && ((j - i) mod p =? 0)
         then Some (Flag false) else a !! Z.to_nat j) /\
      accesses w' =
        accesses w ++
        map (fun k => Write (i + k * p) false) (seqZ 0 ((limit - i) / p + 1)) /\
      stdout w' = stdout w).
Proof.
  induction fuel as [|fuel IH]; intros limit p i w a Ha Hlen Hi Hp Hfuel; [lia|].
  cbn [strike_loop]. destruct (Z.leb_spec i limit) as [Hle|Hgt].
  - apply wp_bind. eapply wp_store; [exact Ha | lia |].
    apply wp_bind. apply wp_int_result; [intros _ | unfold INT_MIN; lia].
    eapply wp_mono;
      [eapply IH with (a := <[Z.to_nat i := Flag false]> a) | tauto |].
    + reflexivity.
    + rewrite length_insert. lia.
    + lia.
    + exact Hp.
    + lia.
    + cbn [is_prime accesses stdout].
      intros _ w' (a' & Ha' & Hl & Hcells & Hacc & Hout).
      exists a'. split; [exact Ha'|]. split; [rewrite Hl; apply length_insert|].
      split; [|split; [|exact Hout]].
      * intros j Hj. rewrite (Hcells j Hj), lookup_insert_Z by lia.
        destruct (Z.eqb_spec j i) as [->|Hne].
        -- replace (i - i) with 0 by ring. rewrite Z.mod_0_l by lia.
           destruct (Z.leb_spec (i + p) i), (Z.leb_spec i i),
             (Z.leb_spec i limit); cbn; try reflexivity; lia.
        -- rewrite strike_step_cond by assumption. reflexivity.
      * rewrite Hacc, <- app_assoc. f_equal.
        assert (Hn : 0 <= (limit - i) / p) by (apply Z.div_pos; lia).
        rewrite strike_count by exact Hp.
        rewrite (seqZ_cons 0 ((limit - i) / p + 1)) by lia.
        replace (Z.pred ((limit - i) / p + 1)) with ((limit - i) / p) by lia.
        change (Z.succ 0) with (1 + 0).
        rewrite <- fmap_add_seqZ. cbn [map app].
        replace (i + 0 * p) with i by ring. f_equal.
        rewrite <- list_fmap_compose. apply list_fmap_ext.
        intros _ k _. cbn. f_equal. ring.
  - apply wp_ret. exists a. split; [exact Ha|]. split; [reflexivity|].
    split; [|split; [|reflexivity]].
    + intros j Hj. destruct (Z.leb_spec i j), (Z.leb_spec j limit); cbn;
        try reflexivity; lia.
    + rewrite seqZ_nil; [cbn; symmetry; apply app_nil_r|].
      assert ((limit - i) / p < 0) by (apply Z.div_lt_upper_bound; lia). lia.
Qed.

(** The indices struck by the inner loop lie between [p * p] and [limit]. *)
Lemma strike_indices i p limit k :
  0 < p -> 0 <= k < (limit - i) / p + 1 -> i <= i + k * p <= limit.
Proof.
  intros Hp Hk.
  assert (p * ((limit - i) / p) <= limit - i) by (apply Z.mul_div_le; lia).
  nia.
Qed.

(** ** The invariant of the outer loop *)

Lemma mod_sub_square i p : 0 < p -> ((i - p * p) mod p =? 0) = (i mod p =? 0).
Proof.
  intros Hp. replace (i - p * p) with (i + (- p) * p) by ring.
  rewrite Z_mod_plus_full. reflexivity.
Qed.

Lemma sieved_initial limit (a : list cell) :
  Z.of_nat (length a) = limit + 1 ->
  (forall i, 2 <= i <= limit -> a !! Z.to_nat i = Some (Flag true)) ->
  sieved limit 2 a.
Proof.
  intros Hlen Hcells. split; [exact Hlen|]. intros i Hi.
  exists true. split; [apply Hcells, Hi|]. split; [intros _ d Hd; lia | reflexivity].
Qed.

Lemma sieved_strike limit p (a a' : list cell) :
  2 <= p -> sieved limit p a -> length a' = length a ->
  (forall j, 0 <= j -> a' !! Z.to_nat j =
     if (p * p <=? j) && (j <=? limit) && ((j - p * p) mod p =? 0)
     then Some (Flag false) else a !! Z.to_nat j) ->
  sieved limit (p + 1) a'.
Proof.
  intros Hp [Hlen Hinv] Hl Hcells. split; [rewrite Hl; exact Hlen|].
  intros i Hi. destruct (Hinv i Hi) as (b & Hb & Hiff).
  rewrite (Hcells i) by lia. rewrite mod_sub_square by lia.
  destruct (Z.leb_spec (p * p) i) as [Hsq|Hsq]; cbn.
  - destruct (Z.leb_spec i limit); [cbn | lia].
    destruct (Z.eqb_spec (i mod p) 0) as [Hmod|Hmod].
    + exists false. split; [reflexivity|]. split; [discriminate|].
      intros Hall. exfalso. apply (Hall p); [lia | exact Hsq |].
      apply Z.mod_divide; [lia | exact Hmod].
    + exists b. split; [exact Hb|]. rewrite Hiff. split.
      * intros Hall d Hd Hdd Hdiv. destruct (Z.eq_dec d p) as [->|Hne].
        -- apply Hmod. apply Z.mod_divide; [lia | exact Hdiv].
        -- apply (Hall d); [lia | exact Hdd | exact Hdiv].
      * intros Hall d Hd. apply Hall. lia.
  - exists b. split; [exact Hb|]. rewrite Hiff. split.
    + intros Hall d Hd Hdd. apply Hall; [nia | exact Hdd].
    + intros Hall d Hd. apply Hall. lia.
Qed.

Lemma sieved_skip limit p (a : list cell) :
  2 <= p <= limit -> sieved limit p a ->
  a !! Z.to_nat p = Some (Flag false) ->
  sieved limit (p + 1) a.
Proof.
  intros Hp [Hlen Hinv] Hcell. split; [exact Hlen|].
  intros i Hi. destruct (Hinv i Hi) as (b & Hb & Hiff).
  exists b. split; [exact Hb|]. rewrite Hiff. split.
  - intros Hall d Hd Hdd Hdiv. destruct (Z.eq_dec d p) as [->|Hne].
    + destruct (Hinv p Hp) as (c & Hc & Hciff).
      rewrite Hcell in Hc. injection Hc as <-.
      assert (Habs : false = true); [|discriminate].
      apply Hciff. intros e He Hee Hediv.
      apply (Hall e); [lia | nia |].
      eapply Z.divide_trans; eassumption.
    + apply (Hall d); [lia | exact Hdd | exact Hdiv].
  - intros Hall d Hd. apply Hall. lia.
Qed.

(** ** The outer loop *)

Lemma square_overflow p : 2 <= p -> INT_MAX < p * p -> SQUARE_BOUND <= (p - 1) * (p - 1).
Proof.
  unfold INT_MAX, SQUARE_BOUND. intros Hp Hsq.
  assert (46341 <= p) by nia. nia.
Qed.

Lemma square_in_int p : 2 <= p -> p * p <= INT_MAX -> p <= 46340.
Proof. unfold INT_MAX. intros Hp Hsq. nia. Qed.

Lemma sieve_loop_wp inner fuel : forall limit p w a,
  is_prime w = Some a -> sieved limit p a ->
  2 <= p -> (p = 2 \/ (p - 1) * (p - 1) <= limit) ->
  limit <= INT_MAX ->
  (Z.to_nat limit < inner)%nat ->
  (Z.to_nat (limit + 1 - p) < fuel)%nat ->
  wp (SQUARE_BOUND <= limit) (sieve_loop inner fuel limit p) w (fun _ w' =>
    exists a' q t, is_prime w' = Some a' /\ sieved limit q a' /\
      p <= q /\ limit < q * q <= INT_MAX /\
      accesses w' = accesses w ++ t /\ Forall (in_range limit) t /\
      stdout w' = stdout w).
Proof.
  induction fuel as [|fuel IH];
    intros limit p w a Ha Hinv Hp Hprev Hmax Hinner Hfuel; [lia|].
  cbn [sieve_loop]. apply wp_bind. apply wp_int_result.
  2:{ intros Hovf. assert (Hsq : INT_MAX < p * p) by (unfold INT_MIN in Hovf; nia).
      pose proof (square_overflow p Hp Hsq) as Hb.
      destruct Hprev as [->|Hprev]; [unfold INT_MAX in Hsq; lia | lia]. }
  intros Hpp. destruct (Z.leb_spec (p * p) limit) as [Hle|Hgt].
  2:{ apply wp_ret. exists a, p, []. rewrite app_nil_r.
      split; [exact Ha|]. split; [exact Hinv|]. split; [lia|].
      split; [lia|]. split; [reflexivity|]. split; [constructor | reflexivity]. }
  assert (Hp46 : p <= 46340) by (apply square_in_int; lia).
  assert (Hpl : 2 <= p <= limit) by nia.
  destruct (proj2 Hinv p Hpl) as (c & Hc & _).
  apply wp_bind. eapply wp_load; [exact Ha | lia | exact Hc |].
  apply wp_bind.
  assert (Hnext : forall a1 w1 t1,
    is_prime w1 = Some a1 -> sieved limit (p + 1) a1 ->
    accesses w1 = accesses w ++ t1 -> Forall (in_range limit) t1 ->
    stdout w1 = stdout w ->
    wp (SQUARE_BOUND <= limit)
       (p' <- add_int p 1 ;; sieve_loop inner fuel limit p') w1 (fun _ w' =>
         exists a' q t, is_prime w' = Some a' /\ sieved limit q a' /\
           p <= q /\ limit < q * q <= INT_MAX /\
           accesses w' = accesses w ++ t /\ Forall (in_range limit) t /\
           stdout w' = stdout w)).
  { intros a1 w1 t1 Ha1 Hinv1 Hacc1 Ht1 Hout1.
    apply wp_bind. apply wp_int_result;
      [intros _ | unfold INT_MIN, INT_MAX; lia].
    eapply wp_mono; [eapply (IH limit (p + 1) w1 a1) | tauto |];
      try assumption; try lia.
    intros _ w' (a' & q & t & Ha' & Hinv' & Hq & Hqq & Hacc & Ht & Hout).
    exists a', q, (t1 ++ t). rewrite Hacc, Hacc1, Hout, Hout1, app_assoc.
    split; [exact Ha'|]. split; [exact Hinv'|]. split; [lia|].
    split; [lia|]. split; [reflexivity|]. split; [|reflexivity].
    apply Forall_app. split; assumption. }
  destruct c.
  - apply wp_bind. apply wp_int_result; [intros _ | intros Hn; destruct (Hn Hpp)].
    eapply wp_mono; [eapply (strike_loop_wp inner limit p (p * p)) | |].
    + reflexivity.
    + destruct Hinv as [Hlen _]. lia.
    + nia.
    + lia.
    + nia.
    + unfold INT_MAX, SQUARE_BOUND. lia.
    + cbn [is_prime accesses stdout].
      intros _ w1 (a1 & Ha1 & Hl1 & Hcells & Hacc1 & Hout1).
      eapply Hnext; [exact Ha1 | | | | exact Hout1].
      * eapply sieved_strike; [lia | exact Hinv | exact Hl1 | exact Hcells].
      * rewrite Hacc1, <- app_assoc. reflexivity.
      * apply Forall_app. split; [repeat constructor; cbn; lia|].
        apply Forall_fmap, Forall_seqZ. intros k Hk. unfold in_range. cbn.
        pose proof (strike_indices (p * p) p limit k). nia.
  - apply wp_ret. eapply Hnext; [reflexivity | | reflexivity | | reflexivity].
    + apply sieved_skip; assumption.
    + repeat constructor; cbn; lia.
Qed.

(** ** The stages of [compute_primes] *)

Lemma int_result_ok z w : INT_MIN <= z <= INT_MAX -> int_result z w = Done z w.
Proof. intros H. unfold int_result. apply in_int_spec in H. rewrite H. reflexivity. Qed.

Lemma int_result_overflow z w :
  ~ INT_MIN <= z <= INT_MAX -> int_result z w = Undefined SignedOverflow w.
Proof.
  intros H. unfold int_result. destruct (in_int z) eqn:E; [|reflexivity].
  apply in_int_spec in E. contradiction.
Qed.

Lemma request_small limit : -1 <= limit < INT_MAX -> request limit = limit + 1.
Proof.
  unfold INT_MAX. intros H.
  unfold request, size_t_mul, size_t_of_int, sizeof_bool, SIZE_MODULUS.
  change (2 ^ 64) with 18446744073709551616.
  rewrite Z.mul_1_r, Z.mod_mod, Z.mod_small; lia.
Qed.

Lemma allocate_in_int heap limit w :
  in_int (limit + 1) = true ->
  allocate heap limit w =
  if heap (request limit)
  then Done true (World (Some (replicate (Z.to_nat (request limit)) Indeterminate))
                        (accesses w) (stdout w))
  else Done false (World None (accesses w) (stdout w)).
Proof.
  intros H. unfold allocate, bind, add_int, int_result. rewrite H.
  unfold malloc. fold (request limit).
  unfold sizeof_bool. rewrite Z.div_1_r. reflexivity.
Qed.

Lemma allocate_ok heap limit w :
  INT_MIN <= limit < INT_MAX ->
  allocate heap limit w =
  if heap (request limit)
  then Done true (World (Some (replicate (Z.to_nat (request limit)) Indeterminate))
                        (accesses w) (stdout w))
  else Done false (World None (accesses w) (stdout w)).
Proof.
  intros H. apply allocate_in_int, in_int_spec.
  unfold INT_MIN, INT_MAX in *. lia.
Qed.

Lemma allocate_int_max heap w :
  allocate heap INT_MAX w = Undefined SignedOverflow w.
Proof. reflexivity. Qed.

Lemma initialise_small limit w : limit < 2 -> initialise limit w = Done tt w.
Proof.
  intros H. unfold initialise, fuel_for. cbn [init_loop].
  destruct (Z.leb_spec 2 limit); [lia | reflexivity].
Qed.

Lemma eliminate_small limit w : limit < 4 -> eliminate limit w = Done tt w.
Proof.
  intros H. unfold eliminate, fuel_for. cbn [sieve_loop].
  unfold bind, mul_int. rewrite int_result_ok by (unfold INT_MIN, INT_MAX; lia).
  destruct (Z.leb_spec (2 * 2) limit); [lia | reflexivity].
Qed.

Lemma initialise_wp limit w a :
  is_prime w = Some a -> Z.of_nat (length a) = limit + 1 -> limit < INT_MAX ->
  wp False (initialise limit) w (fun _ w' =>
    exists a', is_prime w' = Some a' /\ length a' = length a /\
      (forall j, 0 <= j -> a' !! Z.to_nat j =
         if (2 <=? j) && (j <=? limit) then Some (Flag true)
         else a !! Z.to_nat j) /\
      accesses w' =
        accesses w ++ map (fun j => Write j true) (seqZ 2 (limit + 1 - 2)) /\
      stdout w' = stdout w).
Proof.
  intros Ha Hlen Hmax. unfold initialise, fuel_for.
  apply init_loop_wp; try assumption; lia.
Qed.

Lemma eliminate_wp limit w a :
  is_prime w = Some a -> sieved limit 2 a -> limit <= INT_MAX ->
  wp (SQUARE_BOUND <= limit) (eliminate limit) w (fun _ w' =>
    exists a' q t, is_prime w' = Some a' /\ sieved limit q a' /\
      2 <= q /\ limit < q * q <= INT_MAX /\
      accesses w' = accesses w ++ t /\ Forall (in_range limit) t /\
      stdout w' = stdout w).
Proof.
  intros Ha Hinv Hmax. unfold eliminate, fuel_for.
  apply sieve_loop_wp with (a := a); try assumption; lia.
Qed.

(** Everything up to the end of the elimination pass, for a bound of at
    least 2 and a granted allocation. *)
Lemma sieve_wp heap limit w :
  2 <= limit <= INT_MAX -> heap (request limit) = true ->
  wp (SQUARE_BOUND <= limit) (until_eliminated heap limit) w (fun ok w' =>
    ok = true /\
    exists a q t, is_prime w' = Some a /\ sieved limit q a /\
      2 <= q /\ limit < q * q <= INT_MAX /\
      accesses w' = accesses w ++ t /\ Forall (in_range limit) t /\
      stdout w' = stdout w).
Proof.
  intros Hl Hheap. unfold until_eliminated.
  destruct (Z.eq_dec limit INT_MAX) as [->|Hne].
  { unfold wp, bind. rewrite allocate_int_max. unfold SQUARE_BOUND, INT_MAX. lia. }
  apply wp_bind. unfold wp at 1.
  rewrite allocate_ok, Hheap by (unfold INT_MIN; lia).
  rewrite request_small by lia.
  apply wp_bind. eapply wp_mono; [eapply initialise_wp | tauto |].
  - reflexivity.
  - rewrite length_replicate. lia.
  - lia.
  - cbn [is_prime accesses stdout].
    intros _ w1 (a1 & Ha1 & Hl1 & Hcells & Hacc1 & Hout1).
    apply wp_bind. eapply wp_mono; [eapply eliminate_wp | tauto |].
    + exact Ha1.
    + apply sieved_initial.
      * rewrite Hl1, length_replicate. lia.
      * intros i Hi. rewrite Hcells by lia.
        destruct (Z.leb_spec 2 i), (Z.leb_spec i limit); cbn; try reflexivity; lia.
    + lia.
    + intros _ w2 (a2 & q & t & Ha2 & Hinv & Hq & Hqq & Hacc2 & Ht & Hout2).
      apply wp_ret. split; [reflexivity|].
      exists a2, q, (map (fun j => Write j true) (seqZ 2 (limit + 1 - 2)) ++ t).
      split; [exact Ha2|]. split; [exact Hinv|]. split; [exact Hq|].
      split; [exact Hqq|].
      split; [rewrite Hacc2, Hacc1, app_assoc; reflexivity|].
      split; [|rewrite Hout2; exact Hout1].
      apply Forall_app. split; [|exact Ht].
      apply Forall_fmap, Forall_seqZ. intros j Hj. unfold in_range. cbn. lia.
Qed.

Lemma until_eliminated_small heap limit w :
  INT_MIN <= limit < 2 -> heap (request limit) = true ->
  until_eliminated heap limit w =
  Done true (World (Some (replicate (Z.to_nat (request limit)) Indeterminate))
                   (accesses w) (stdout w)).
Proof.
  intros Hl Hheap. unfold until_eliminated, bind at 1.
  rewrite allocate_ok, Hheap by (unfold INT_MAX; lia).
  unfold bind. rewrite initialise_small, eliminate_small by lia. reflexivity.
Qed.

(** The whole function does what the run up to the end of the elimination
    pass does, then releases the array and prints. *)
Lemma compute_primes_after heap limit w w1 :
  until_eliminated heap limit w = Done true w1 ->
  compute_primes heap limit w =
  Done tt (World None (accesses w1) (stdout w1 ++ [end_program])).
Proof.
  unfold until_eliminated, compute_primes, bind.
  destruct (allocate heap limit w) as [[] wa|u wa|]; try discriminate.
  destruct (initialise limit wa) as [[] wi|u wi|]; try discriminate.
  destruct (eliminate limit wi) as [[] we|u we|]; try discriminate.
  unfold ret. intros [= <-]. reflexivity.
Qed.

Lemma compute_primes_refused heap limit w :
  INT_MIN <= limit < INT_MAX -> heap (request limit) = false ->
  compute_primes heap limit w = Done tt (World None (accesses w) (stdout w)).
Proof.
  intros Hl Hheap. unfold compute_primes, bind.
  rewrite allocate_ok, Hheap by assumption. reflexivity.
Qed.

(** ** What the final marking means *)

Lemma sieved_prime limit q (a : list cell) i :
  sieved limit q a -> 2 <= q -> limit < q * q -> 2 <= i <= limit ->
  candidate a i = true <-> Z.prime i.
Proof.
  intros [_ Hinv] Hq Hqq Hi. destruct (Hinv i Hi) as (b & Hb & Hiff).
  unfold candidate. rewrite Hb.
  assert (Hflag : (if b then true else false) = true <-> b = true)
    by (destruct b; tauto).
  rewrite Hflag, Hiff. split.
  - intros Hall. split; [lia|]. intros n Hn [m Hm].
    destruct (Z_le_gt_dec (n * n) i) as [Hsq|Hsq].
    + apply (Hall n); [nia | exact Hsq | exists m; exact Hm].
    + assert (Hm2 : 2 <= m) by nia.
      assert (Hmn : m < n) by nia.
      assert (Hmm : m * m <= i) by nia.
      apply (Hall m); [nia | exact Hmm | exists n; lia].
  - intros [_ Hnd] d Hd Hdd Hdiv. apply (Hnd d); [nia | exact Hdiv].
Qed.

Lemma trial_division_prime n : trial_division n = true <-> Z.prime n.
Proof.
  unfold trial_division. rewrite andb_true_iff, Z.leb_le, forallb_forall. split.
  - intros [H2 Hall]. split; [lia|]. intros d Hd Hdiv.
    assert (Hneg : negb (n mod d =? 0) = true).
    { apply Hall, list_elem_of_In, elem_of_seqZ. lia. }
    apply Z.mod_divide in Hdiv; [|lia]. rewrite Hdiv in Hneg. discriminate.
  - intros [H1 Hnd]. split; [lia|]. intros d Hin.
    apply list_elem_of_In, elem_of_seqZ in Hin.
    apply negb_true_iff, Z.eqb_neq. intros Hmod.
    apply (Hnd d); [lia|]. apply Z.mod_divide; [lia | exact Hmod].
Qed.

Lemma filter_agree {X : Type} (P Q : X -> Prop)
    `{!forall x, Decision (P x)} `{!forall x, Decision (Q x)} (l : list X) :
  (forall x, x ∈ l -> P x <-> Q x) -> filter P l = filter Q l.
Proof.
  induction l as [|x l IH]; intros Hagree; [reflexivity|].
  assert (Hx : P x <-> Q x) by (apply Hagree; left).
  assert (Hl : filter P l = filter Q l)
    by (apply IH; intros y Hy; apply Hagree; right; exact Hy).
  destruct (decide (P x)) as [HP|HP].
  - rewrite !filter_cons_True by tauto. f_equal. exact Hl.
  - rewrite !filter_cons_False by tauto. exact Hl.
Qed.

Lemma candidates_primes limit q (a : list cell) :
  sieved limit q a -> 2 <= q -> limit < q * q ->
  candidates a limit = primes_upto limit.
Proof.
  intros Hinv Hq Hqq. unfold candidates, primes_upto.
  apply filter_agree. intros i Hi. apply elem_of_seqZ in Hi.
  rewrite trial_division_prime. eapply sieved_prime; try eassumption. lia.
Qed.

Lemma elem_of_candidates (a : list cell) limit i :
  i ∈ candidates a limit <-> candidate a i = true /\ 2 <= i <= limit.
Proof.
  unfold candidates. rewrite list_elem_of_filter, elem_of_seqZ.
  split; intros [H1 H2]; (split; [exact H1 | lia]).
Qed.

(** ** Logs are only appended to *)

Section Frames.

Context {A B : Type}.

Lemma framed_ret (a : A) : framed (ret a).
Proof. intros acc out w. reflexivity. Qed.

Lemma framed_bind (m : M A) (k : A -> M B) :
  framed m -> (forall a, framed (k a)) -> framed (bind m k).
Proof.
  intros Hm Hk acc out w. unfold bind. rewrite Hm.
  destruct (m w) as [a w'|u w'|]; cbn; [apply Hk | reflexivity | reflexivity].
Qed.

End Frames.

Lemma framed_int_result z : framed (int_result z).
Proof. intros acc out w. unfold int_result. destruct (in_int z); reflexivity. Qed.

Lemma framed_malloc heap bytes : framed (malloc heap bytes).
Proof. intros acc out w. unfold malloc. destruct (heap bytes); reflexivity. Qed.

Lemma framed_store i b : framed (store i b).
Proof.
  intros acc out w. unfold store. cbn [relog is_prime accesses stdout].
  destruct (is_prime w) as [a|]; [|reflexivity].
  destruct (in_block a i); [|reflexivity].
  cbn. unfold relog. cbn. rewrite app_assoc. reflexivity.
Qed.

Lemma framed_load i : framed (load i).
Proof.
  intros acc out w. unfold load. cbn [relog is_prime accesses stdout].
  destruct (is_prime w) as [a|]; [|reflexivity].
  destruct (in_block a i); [|reflexivity].
  destruct (a !! Z.to_nat i) as [[|b]|]; try reflexivity.
  cbn. unfold relog. cbn. rewrite app_assoc. reflexivity.
Qed.

Lemma framed_free : framed free.
Proof. intros acc out w. reflexivity. Qed.

Lemma framed_printf s : framed (printf s).
Proof.
  intros acc out w. unfold printf, relog_result, relog.
  cbn [is_prime accesses stdout]. rewrite app_assoc. reflexivity.
Qed.

Lemma framed_out_of_fuel {A : Type} : framed (@out_of_fuel A).
Proof. intros acc out w. reflexivity. Qed.

Create HintDb frames.
#[local] Hint Resolve framed_ret framed_int_result framed_malloc framed_store
  framed_load framed_free framed_printf framed_out_of_fuel : frames.

Ltac frame_step :=
  repeat first
    [ solve [unfold add_int, mul_int; auto with frames]
    | apply framed_bind; [|intros ?] ].

Lemma framed_init_loop fuel : forall limit i, framed (init_loop fuel limit i).
Proof.
  induction fuel as [|fuel IH]; intros limit i; cbn [init_loop];
    [apply framed_out_of_fuel|].
  destruct (i <=? limit); frame_step.
Qed.

Lemma framed_strike_loop fuel : forall limit p i, framed (strike_loop fuel limit p i).
Proof.
  induction fuel as [|fuel IH]; intros limit p i; cbn [strike_loop];
    [apply framed_out_of_fuel|].
  destruct (i <=? limit); frame_step.
Qed.

Lemma framed_sieve_loop inner fuel : forall limit p, framed (sieve_loop inner fuel limit p).
Proof.
  induction fuel as [|fuel IH]; intros limit p; cbn [sieve_loop];
    [apply framed_out_of_fuel|].
  apply framed_bind; [frame_step|]. intros pp.
  destruct (pp <=? limit); frame_step.
  destruct a; frame_step. apply framed_strike_loop.
Qed.

#[local] Hint Resolve framed_init_loop framed_strike_loop framed_sieve_loop : frames.

Lemma framed_allocate heap limit : framed (allocate heap limit).
Proof. unfold allocate. frame_step. Qed.

Lemma framed_compute_primes heap limit : framed (compute_primes heap limit).
Proof.
  unfold compute_primes, initialise, eliminate.
  apply framed_bind; [apply framed_allocate|]. intros []; frame_step.
Qed.

Lemma framed_until_eliminated heap limit : framed (until_eliminated heap limit).
Proof.
  unfold until_eliminated, initialise, eliminate.
  apply framed_bind; [apply framed_allocate|]. intros []; frame_step.
Qed.

(** ** Complete runs *)

Lemma load_ok i b w (a : list cell) :
  is_prime w = Some a -> 0 <= i -> a !! Z.to_nat i = Some (Flag b) ->
  load i w = Done b (World (Some a) (accesses w ++ [Read i]) (stdout w)).
Proof.
  intros Ha Hi Hb. unfold load. rewrite Ha.
  assert (Hin : in_block a i = true).
  { apply in_block_spec. apply lookup_lt_Some in Hb. lia. }
  rewrite Hin, Hb. reflexivity.
Qed.

(** Below [SQUARE_BOUND], with the allocation granted, the run reaches the end
    of the elimination pass. *)
Lemma sieve_done heap limit w :
  2 <= limit < SQUARE_BOUND -> heap (request limit) = true ->
  exists w' a q t, until_eliminated heap limit w = Done true w' /\
    is_prime w' = Some a /\ sieved limit q a /\
    2 <= q /\ limit < q * q <= INT_MAX /\
    accesses w' = accesses w ++ t /\ Forall (in_range limit) t /\
    stdout w' = stdout w.
Proof.
  intros Hl Hheap.
  assert (Hwp := sieve_wp heap limit w).
  eapply wp_mono with (ovf' := False) in Hwp;
    [| unfold SQUARE_BOUND, INT_MAX in *; lia | exact Hheap | lia
     | intros a w' HQ; exact HQ].
  destruct (wp_done _ _ _ Hwp) as (ok & w' & Hrun & -> & a & q & t & H).
  exists w', a, q, t. split; [exact Hrun | exact H].
Qed.

(** Whenever the run reaches the end of the elimination pass, for whatever
    bound, the marking is the sieved one. *)
Lemma sieve_inv heap limit w w' :
  2 <= limit -> until_eliminated heap limit w = Done true w' ->
  exists a q, is_prime w' = Some a /\ sieved limit q a /\
    2 <= q /\ limit < q * q <= INT_MAX.
Proof.
  intros Hl Hrun.
  assert (Hint : in_int (limit + 1) = true).
  { revert Hrun. unfold until_eliminated, allocate, bind, add_int, int_result.
    destruct (in_int (limit + 1)); [reflexivity | discriminate]. }
  assert (Hheap : heap (request limit) = true).
  { revert Hrun. unfold until_eliminated, bind.
    rewrite allocate_in_int by exact Hint.
    destruct (heap (request limit)); [reflexivity | discriminate]. }
  apply in_int_spec in Hint. unfold INT_MAX in Hint.
  assert (Hwp := sieve_wp heap limit w ltac:(unfold INT_MAX; lia) Hheap).
  unfold wp in Hwp.
  rewrite Hrun in Hwp. destruct Hwp as (_ & a & q & t & Ha & Hinv & Hq & Hqq & _).
  exists a, q. auto.
Qed.

(** Above it, a granted allocation always ends in a signed overflow. *)
Lemma sieve_overflow heap limit w :
  SQUARE_BOUND <= limit <= INT_MAX -> heap (request limit) = true ->
  exists w', until_eliminated heap limit w = Undefined SignedOverflow w'.
Proof.
  intros Hl Hheap.
  assert (Hwp := sieve_wp heap limit w).
  eapply wp_overflow in Hwp; [apply Hwp | unfold SQUARE_BOUND in *; lia
                             | exact Hheap |].
  intros ok w' (_ & a & q & t & _ & _ & Hq & Hqq & _).
  unfold SQUARE_BOUND, INT_MAX in *.
  assert (q <= 46340) by nia. nia.
Qed.

Lemma compute_primes_overflow heap limit w w' :
  until_eliminated heap limit w = Undefined SignedOverflow w' ->
  compute_primes heap limit w = Undefined SignedOverflow w'.
Proof.
  unfold until_eliminated, compute_primes, bind.
  destruct (allocate heap limit w) as [[] wa|u wa|]; try discriminate;
    [|intros [= -> ->]; reflexivity].
  destruct (initialise limit wa) as [[] wi|u wi|]; try discriminate;
    [|intros [= -> ->]; reflexivity].
  destruct (eliminate limit wi) as [[] we|u we|]; try discriminate.
  intros [= -> ->]; reflexivity.
Qed.

(** For every [int] bound the function either returns or stops on a signed
    overflow: it never leaves its block, never reads a cell it did not write,
    and the fuel of its loops never runs out. *)
Lemma compute_primes_outcome heap limit w :
  INT_MIN <= limit <= INT_MAX ->
  exists w', compute_primes heap limit w = Done tt w' \/
             compute_primes heap limit w = Undefined SignedOverflow w'.
Proof.
  intros Hl. destruct (Z.eq_dec limit INT_MAX) as [->|Hne].
  { exists w. right. reflexivity. }
  destruct (heap (request limit)) eqn:Hheap.
  2:{ eexists. left. apply compute_primes_refused; [lia | exact Hheap]. }
  destruct (Z_lt_le_dec limit 2) as [Hsmall|Hbig].
  { eexists. left. eapply compute_primes_after.
    apply until_eliminated_small; [lia | exact Hheap]. }
  destruct (Z_lt_le_dec limit SQUARE_BOUND) as [Hlow|Hhigh].
  - destruct (sieve_done heap limit w ltac:(lia) Hheap) as (w' & _ & _ & _ & Hrun & _).
    eexists. left. apply (compute_primes_after _ _ _ _ Hrun).
  - destruct (sieve_overflow heap limit w ltac:(lia) Hheap) as [w' Hrun].
    exists w'. right. apply compute_primes_overflow, Hrun.
Qed.

Lemma compute_primes_null heap limit w w' :
  compute_primes heap limit w = Done tt w' -> is_prime w' = None.
Proof.
  unfold compute_primes, bind.
  destruct (allocate heap limit w) as [[] wa|u wa|] eqn:Ealloc; try discriminate.
  - destruct (initialise limit wa) as [[] wi|u wi|]; try discriminate.
    destruct (eliminate limit wi) as [[] we|u we|]; try discriminate.
    intros [= <-]. reflexivity.
  - intros [= <-]. revert Ealloc. unfold allocate, bind, add_int, int_result.
    destruct (in_int (limit + 1)); [|discriminate].
    unfold malloc. destruct (heap _); [discriminate|]. intros [= <-]. reflexivity.
Qed.

Lemma compute_primes_in_int heap limit w w' :
  compute_primes heap limit w = Done tt w' -> in_int (limit + 1) = true.
Proof.
  unfold compute_primes, allocate, bind, add_int, int_result.
  destruct (in_int (limit + 1)); [reflexivity | discriminate].
Qed.

Lemma relog_initial w : w = relog (accesses w) (stdout w) (World (is_prime w) [] []).
Proof. destruct w as [ip acc out]. unfold relog. cbn. rewrite !app_nil_r. reflexivity. Qed.

(** A call does not depend on the world it starts in, beyond extending its
    logs. *)
Lemma compute_primes_from_scratch heap limit w :
  in_int (limit + 1) = true ->
  compute_primes heap limit w =
  relog_result (accesses w) (stdout w) (compute_primes heap limit initial_world).
Proof.
  intros Hint. rewrite (relog_initial w) at 1. rewrite framed_compute_primes.
  f_equal. unfold compute_primes, bind. rewrite !allocate_in_int by exact Hint.
  reflexivity.
Qed.

Lemma until_eliminated_from_scratch heap limit w :
  in_int (limit + 1) = true ->
  until_eliminated heap limit w =
  relog_result (accesses w) (stdout w) (until_eliminated heap limit initial_world).
Proof.
  intros Hint. rewrite (relog_initial w) at 1. rewrite framed_until_eliminated.
  f_equal. unfold until_eliminated, bind. rewrite !allocate_in_int by exact Hint.
  reflexivity.
Qed.

Lemma marking_relog {A : Type} acc out (r : result A) :
  marking (relog_result acc out r) = marking r.
Proof. destruct r; reflexivity. Qed.

(** * The specification, claim by claim *)

(** ** Concrete runs *)

Example sieve_of_2 :
  option_map (fun a => candidates a 2)
    (marking (until_eliminated always 2 initial_world)) = Some [2].
Proof. vm_compute. reflexivity. Qed.

Example sieve_of_3 :
  option_map (fun a => candidates a 3)
    (marking (until_eliminated always 3 initial_world)) = Some [2; 3].
Proof. vm_compute. reflexivity. Qed.

Example sieve_of_10 :
  option_map (fun a => candidates a 10)
    (marking (until_eliminated always 10 initial_world)) = Some [2; 3; 5; 7].
Proof. vm_compute. reflexivity. Qed.

Example sieve_of_30 :
  option_map (fun a => candidates a 30)
    (marking (until_eliminated always 30 initial_world)) =
  Some [2; 3; 5; 7; 11; 13; 17; 19; 23; 29].
Proof. vm_compute. reflexivity. Qed.

Example primes_upto_boundaries :
  primes_upto 2 = [2] /\ primes_upto 3 = [2; 3] /\ primes_upto 10 = [2; 3; 5; 7].
Proof. vm_compute. auto. Qed.

(** The program itself: with the allocation of its 1000001 flags granted,
    [main] prints the marker once and exits with status 0; with the
    allocation refused it prints nothing and exits with status 0 as well. *)
Lemma main_exits_with_0 heap :
  exists w, main heap initial_world = Done 0 w /\
    stdout w = if heap (request 1000000) then [end_program] else [].
Proof.
  unfold main, bind. destruct (heap (request 1000000)) eqn:Hheap.
  - destruct (sieve_done heap 1000000 initial_world) as (w1 & _ & _ & _ & Hrun & _);
      [unfold SQUARE_BOUND; lia | exact Hheap |].
    rewrite (compute_primes_after _ _ _ _ Hrun).
    eexists. split; [reflexivity|]. cbn.
    destruct (sieve_done heap 1000000 initial_world)
      as (w2 & _ & _ & _ & Hrun2 & _ & _ & _ & _ & _ & _ & Hout);
      [unfold SQUARE_BOUND; lia | exact Hheap |].
    rewrite Hrun in Hrun2. injection Hrun2 as <-. rewrite Hout. reflexivity.
  - rewrite compute_primes_refused by
      (try exact Hheap; unfold INT_MIN, INT_MAX; lia).
    eexists. split; reflexivity.
Qed.

(** ** C1 *)

(** C1: for every bound [limit] with [2 <= limit] below [SQUARE_BOUND] (the
    bounds for which no arithmetic of the function overflows) and a granted
    allocation, the run reaches the end of the elimination pass, and then an
    index [i] of [2..limit] is marked candidate if and only if [i] is prime;
    the candidates are exactly the primes up to [limit] found by trial
    division, which are [2] for 2, [2; 3] for 3 and [2; 3; 5; 7] for 10. *)
Theorem compute_primes_marks_primes heap limit w0 :
  2 <= limit < SQUARE_BOUND -> heap (request limit) = true ->
  exists w a, until_eliminated heap limit w0 = Done true w /\
    is_prime w = Some a /\
    (forall i, 2 <= i <= limit -> candidate a i = true <-> Z.prime i) /\
    candidates a limit = primes_upto limit.
Proof.
  intros Hl Hheap.
  destruct (sieve_done heap limit w0 Hl Hheap)
    as (w & a & q & t & Hrun & Ha & Hinv & Hq & Hqq & _).
  exists w, a. split; [exact Hrun|]. split; [exact Ha|]. split.
  - intros i Hi. apply (sieved_prime limit q); try assumption; lia.
  - apply (candidates_primes limit q); try assumption; lia.
Qed.

Lemma compute_primes_marks_primes_witness :
  exists w a, until_eliminated always 10 initial_world = Done true w /\
    is_prime w = Some a /\
    (forall i, 2 <= i <= 10 -> candidate a i = true <-> Z.prime i) /\
    candidates a 10 = [2; 3; 5; 7].
Proof.
  apply (compute_primes_marks_primes always 10 initial_world);
    [unfold SQUARE_BOUND; lia | reflexivity].
Defined.

(** ** C2 *)

(** C2, as stated, fails at the bound 10: what the caller receives from a
    call whose allocation is refused is what it receives from a call that
    succeeds, so the refusal is not signalled. *)
Lemma allocation_failure_not_signalled :
  ~ (returned (compute_primes never 10 initial_world) <>
     returned (compute_primes always 10 initial_world)).
Proof. intros H. apply H. vm_compute. reflexivity. Qed.

(** C2, amended: if the allocation is refused, [compute_primes] returns at
    once with the pointer null, without any access to the array and without
    printing: no result, no further computation. *)
Theorem allocation_failure_returns_quietly heap limit w :
  INT_MIN <= limit < INT_MAX -> heap (request limit) = false ->
  compute_primes heap limit w = Done tt (World None (accesses w) (stdout w)) /\
  until_eliminated heap limit w = Done false (World None (accesses w) (stdout w)).
Proof.
  intros Hl Hheap. split; [apply compute_primes_refused; assumption|].
  unfold until_eliminated, bind. rewrite allocate_ok, Hheap by assumption.
  reflexivity.
Qed.

Lemma allocation_failure_returns_quietly_witness :
  compute_primes never 10 initial_world = Done tt initial_world /\
  until_eliminated never 10 initial_world = Done false initial_world.
Proof.
  apply (allocation_failure_returns_quietly never 10 initial_world);
    [unfold INT_MIN, INT_MAX; lia | reflexivity].
Defined.

(** ** C3 *)

Lemma candidate_fresh n i : candidate (replicate n Indeterminate) i = false.
Proof.
  unfold candidate.
  destruct (replicate n Indeterminate !! Z.to_nat i) as [c|] eqn:E; [|reflexivity].
  apply lookup_replicate in E. destruct E as [-> _]. reflexivity.
Qed.

(** C3: for every bound below 2 (0 and 1 among them) and a granted
    allocation, neither loop runs an iteration, so at the end of the
    elimination pass no cell was written and no access was made; no index is
    a candidate; and the function completes and prints its marker. *)
Theorem compute_primes_below_two heap limit w0 :
  INT_MIN <= limit < 2 -> heap (request limit) = true ->
  (forall w, initialise limit w = Done tt w) /\
  (forall w, eliminate limit w = Done tt w) /\
  (exists a,
     until_eliminated heap limit w0 =
       Done true (World (Some a) (accesses w0) (stdout w0)) /\
     Forall (fun c => c = Indeterminate) a /\
     (forall i, candidate a i = false) /\
     candidates a limit = []) /\
  compute_primes heap limit w0 =
    Done tt (World None (accesses w0) (stdout w0 ++ [end_program])).
Proof.
  intros Hl Hheap.
  split; [intros w; apply initialise_small; lia|].
  split; [intros w; apply eliminate_small; lia|].
  pose proof (until_eliminated_small heap limit w0 Hl Hheap) as Hrun.
  split.
  - eexists. split; [exact Hrun|].
    split; [apply Forall_replicate; reflexivity|].
    split; [intros i; apply candidate_fresh|].
    unfold candidates. rewrite seqZ_nil by lia. reflexivity.
  - apply (compute_primes_after heap limit w0 _ Hrun).
Qed.

Lemma compute_primes_below_two_witness :
  (forall w, initialise 1 w = Done tt w) /\
  (forall w, eliminate 1 w = Done tt w) /\
  (exists a,
     until_eliminated always 1 initial_world = Done true (World (Some a) [] []) /\
     Forall (fun c => c = Indeterminate) a /\
     (forall i, candidate a i = false) /\
     candidates a 1 = []) /\
  compute_primes always 1 initial_world = Done tt (World None [] [end_program]).
Proof.
  apply (compute_primes_below_two always 1 initial_world);
    [unfold INT_MIN; lia | reflexivity].
Defined.

(** ** C4 *)

(** C4, as stated, fails at the bound 10: after the initialisation loop the
    cells 0 and 1 do not hold the eliminated state. *)
Lemma cells_0_and_1_not_eliminated :
  ~ (exists w a, until_initialised always 10 initial_world = Done true w /\
       is_prime w = Some a /\
       (forall i, 2 <= i <= 10 -> a !! Z.to_nat i = Some (Flag true)) /\
       a !! Z.to_nat 0 = Some (Flag false) /\
       a !! Z.to_nat 1 = Some (Flag false)).
Proof.
  intros (w & a & Hrun & Ha & _ & H0 & _).
  vm_compute in Hrun. injection Hrun as <-.
  cbn in Ha. injection Ha as <-. discriminate H0.
Qed.

(** C4, amended: after the initialisation loop every cell of [2..limit]
    holds the candidate state; the loop writes those cells and no other, and
    the cells 0 and 1 are still as [malloc] left them, indeterminate. *)
Theorem initialisation_marks_candidates heap limit w0 :
  INT_MIN <= limit < INT_MAX -> heap (request limit) = true ->
  exists w a, until_initialised heap limit w0 = Done true w /\
    is_prime w = Some a /\
    (forall i, 2 <= i <= limit -> a !! Z.to_nat i = Some (Flag true)) /\
    (forall i, 0 <= i < 2 -> i <= limit -> a !! Z.to_nat i = Some Indeterminate) /\
    accesses w =
      accesses w0 ++ map (fun i => Write i true) (seqZ 2 (limit - 1)).
Proof.
  intros Hl Hheap. unfold until_initialised, bind at 1.
  rewrite allocate_ok, Hheap by assumption.
  destruct (Z_lt_le_dec limit 2) as [Hsmall|Hbig].
  - unfold bind. rewrite initialise_small by exact Hsmall.
    eexists _, _. split; [reflexivity|]. split; [reflexivity|].
    split; [intros i Hi; lia|]. split.
    + intros i Hi Hil. apply lookup_replicate. split; [reflexivity|].
      rewrite request_small by lia. lia.
    + cbn. rewrite seqZ_nil by lia. cbn. rewrite app_nil_r. reflexivity.
  - rewrite request_small by lia.
    set (w1 := World (Some (replicate (Z.to_nat (limit + 1)) Indeterminate))
                     (accesses w0) (stdout w0)).
    assert (Hwp := initialise_wp limit w1 _ eq_refl).
    rewrite length_replicate in Hwp.
    specialize (Hwp ltac:(lia) ltac:(lia)).
    destruct (wp_done _ _ _ Hwp) as ([] & w & Hrun & a & Ha & _ & Hcells & Hacc & _).
    exists w, a. unfold bind. rewrite Hrun.
    split; [reflexivity|]. split; [exact Ha|]. split; [|split].
    + intros i Hi. rewrite Hcells by lia.
      destruct (Z.leb_spec 2 i), (Z.leb_spec i limit); cbn; try reflexivity; lia.
    + intros i Hi Hil. rewrite Hcells by lia.
      destruct (Z.leb_spec 2 i); [lia|]. cbn.
      apply lookup_replicate. split; [reflexivity | lia].
    + rewrite Hacc. cbn. do 3 f_equal. lia.
Qed.

Lemma initialisation_marks_candidates_witness :
  exists w a, until_initialised always 10 initial_world = Done true w /\
    is_prime w = Some a /\
    (forall i, 2 <= i <= 10 -> a !! Z.to_nat i = Some (Flag true)) /\
    (forall i, 0 <= i < 2 -> i <= 10 -> a !! Z.to_nat i = Some Indeterminate) /\
    accesses w = [] ++ map (fun i => Write i true) (seqZ 2 (10 - 1)).
Proof.
  apply (initialisation_marks_candidates always 10 initial_world);
    [unfold INT_MIN, INT_MAX; lia | reflexivity].
Defined.

(** ** C5 *)

(** C5: the elimination pass starts at [p = 2]; an iteration entered at [p]
    leaves the loop when [limit < p * p]; otherwise it reads the flag of [p]
    and goes on at [p + 1] whatever the flag is.  If the flag is cleared
    nothing else happens; if it is set the inner pass writes "eliminated" to
    [p * p], [p * p + p], [p * p + 2 p], ... up to [limit], which are exactly
    the multiples of [p] in [p * p .. limit], and leaves all other cells as
    they were. *)
Theorem sieve_loop_step inner fuel limit p w (a : list cell) :
  is_prime w = Some a -> Z.of_nat (length a) = limit + 1 ->
  2 <= p -> p = 2 \/ (p - 1) * (p - 1) <= limit ->
  limit < SQUARE_BOUND -> (Z.to_nat limit < inner)%nat ->
  eliminate limit = sieve_loop (fuel_for limit) (fuel_for limit) limit 2 /\
  (limit < p * p -> sieve_loop inner (S fuel) limit p w = Done tt w) /\
  (p * p <= limit -> forall c, a !! Z.to_nat p = Some (Flag c) ->
     exists w',
       sieve_loop inner (S fuel) limit p w = sieve_loop inner fuel limit (p + 1) w' /\
       stdout w' = stdout w /\
       if c
       then accesses w' =
              accesses w ++ Read p ::
              map (fun k => Write (p * p + k * p) false)
                  (seqZ 0 ((limit - p * p) / p + 1)) /\
            exists a', is_prime w' = Some a' /\ length a' = length a /\
              forall j, 0 <= j -> a' !! Z.to_nat j =
                if (p * p <=? j) && (j <=? limit) && (j mod p =? 0)
                then Some (Flag false) else a !! Z.to_nat j
       else w' = World (Some a) (accesses w ++ [Read p]) (stdout w)).
Proof.
  intros Ha Hlen Hp Hprev Hl Hinner.
  assert (Hp46 : p <= 46340) by (unfold SQUARE_BOUND in Hl; nia).
  assert (Hpp : INT_MIN <= p * p <= INT_MAX) by (unfold INT_MIN, INT_MAX; nia).
  split; [reflexivity|]. split.
  - intros Hgt. cbn [sieve_loop]. unfold bind, mul_int.
    rewrite int_result_ok by exact Hpp.
    destruct (Z.leb_spec (p * p) limit); [lia | reflexivity].
  - intros Hle c Hc. cbn [sieve_loop]. unfold bind at 1, mul_int at 1.
    rewrite int_result_ok by exact Hpp.
    destruct (Z.leb_spec (p * p) limit); [|lia].
    unfold bind at 1. rewrite (load_ok p c w a Ha) by (lia || exact Hc).
    destruct c.
    + set (w1 := World (Some a) (accesses w ++ [Read p]) (stdout w)).
      assert (Hwp := strike_loop_wp inner limit p (p * p) w1 a eq_refl).
      specialize (Hwp ltac:(lia) ltac:(nia) ltac:(lia) ltac:(nia)).
      eapply wp_mono with (ovf' := False) in Hwp;
        [| unfold SQUARE_BOUND, INT_MAX in *; lia | intros x w' HQ; exact HQ].
      destruct (wp_done _ _ _ Hwp)
        as ([] & w2 & Hrun & a2 & Ha2 & Hl2 & Hcells & Hacc & Hout).
      exists w2. unfold bind, mul_int, add_int.
      rewrite int_result_ok by exact Hpp. rewrite Hrun.
      rewrite int_result_ok by (unfold INT_MIN, INT_MAX; lia).
      split; [reflexivity|]. split; [exact Hout|]. split.
      * rewrite Hacc. cbn. rewrite <- app_assoc. reflexivity.
      * exists a2. split; [exact Ha2|]. split; [exact Hl2|].
        intros j Hj. rewrite Hcells by exact Hj.
        rewrite mod_sub_square by lia. reflexivity.
    + exists (World (Some a) (accesses w ++ [Read p]) (stdout w)).
      unfold bind, ret, add_int.
      rewrite int_result_ok by (unfold INT_MIN, INT_MAX; lia).
      split; [reflexivity|]. split; reflexivity.
Qed.

Lemma sieve_loop_step_witness :
  eliminate 10 = sieve_loop (fuel_for 10) (fuel_for 10) 10 2 /\
  (10 < 2 * 2 -> sieve_loop 11 (S 3) 10 2 initialised_10 = Done tt initialised_10) /\
  (2 * 2 <= 10 -> forall c,
     (Indeterminate :: Indeterminate :: replicate 9 (Flag true)) !! Z.to_nat 2
       = Some (Flag c) ->
     exists w',
       sieve_loop 11 (S 3) 10 2 initialised_10 = sieve_loop 11 3 10 (2 + 1) w' /\
       stdout w' = stdout initialised_10 /\
       if c
       then accesses w' =
              accesses initialised_10 ++ Read 2 ::
              map (fun k => Write (2 * 2 + k * 2) false)
                  (seqZ 0 ((10 - 2 * 2) / 2 + 1)) /\
            exists a', is_prime w' = Some a' /\
              length a' =
                length (Indeterminate :: Indeterminate :: replicate 9 (Flag true)) /\
              forall j, 0 <= j -> a' !! Z.to_nat j =
                if (2 * 2 <=? j) && (j <=? 10) && (j mod 2 =? 0)
                then Some (Flag false)
                else (Indeterminate :: Indeterminate :: replicate 9 (Flag true))
                       !! Z.to_nat j
       else w' = World (Some (Indeterminate :: Indeterminate :: replicate 9 (Flag true)))
                       (accesses initialised_10 ++ [Read 2])
                       (stdout initialised_10)).
Proof.
  apply (sieve_loop_step 11 3 10 2 initialised_10);
    [reflexivity | reflexivity | lia | left; reflexivity
    | unfold SQUARE_BOUND; lia | cbn; lia].
Defined.

(** ** C6 *)

(** C6, as stated, fails: at the bound [INT_MAX] the sum [limit + 1]
    overflows, and at the bound [SQUARE_BOUND] the run overflows as well; in
    both cases the bound is computed on, the call does not return. *)
Lemma overflowing_bounds_computed_on :
  ~ (exists w, compute_primes always INT_MAX initial_world = Done tt w) /\
  ~ (exists w, compute_primes always SQUARE_BOUND initial_world = Done tt w).
Proof.
  split; intros [w Hw]; [discriminate Hw|].
  destruct (sieve_overflow always SQUARE_BOUND initial_world) as [w' Hrun];
    [unfold SQUARE_BOUND, INT_MAX; lia | reflexivity |].
  apply compute_primes_overflow in Hrun. rewrite Hrun in Hw. discriminate Hw.
Qed.

(** C6, amended: for every [int] bound below [SQUARE_BOUND] = 46340 * 46340
    no step of [compute_primes] fails, whether the allocation is granted or
    refused: no sum or product leaves the range of [int] and the call
    returns.  For the bounds from [SQUARE_BOUND] on the function computes all
    the same, and if the allocation is granted it ends in a signed
    overflow. *)
Theorem no_overflow_below_square_bound heap limit w :
  INT_MIN <= limit <= INT_MAX ->
  (limit < SQUARE_BOUND ->
     exists w', compute_primes heap limit w = Done tt w') /\
  (SQUARE_BOUND <= limit -> heap (request limit) = true ->
     exists w', compute_primes heap limit w = Undefined SignedOverflow w').
Proof.
  intros Hl. split.
  - intros Hb. destruct (heap (request limit)) eqn:Hheap.
    + destruct (Z_lt_le_dec limit 2) as [Hsmall|Hbig].
      * eexists. eapply compute_primes_after.
        apply until_eliminated_small; [lia | exact Hheap].
      * destruct (sieve_done heap limit w ltac:(lia) Hheap) as (w' & _ & _ & _ & Hrun & _).
        eexists. apply (compute_primes_after _ _ _ _ Hrun).
    + eexists. apply compute_primes_refused; [|exact Hheap].
      unfold SQUARE_BOUND, INT_MAX in *. lia.
  - intros Hb Hheap.
    destruct (sieve_overflow heap limit w ltac:(lia) Hheap) as [w' Hrun].
    exists w'. apply compute_primes_overflow, Hrun.
Qed.

Lemma no_overflow_below_square_bound_witness :
  (10 < SQUARE_BOUND ->
     exists w', compute_primes always 10 initial_world = Done tt w') /\
  (SQUARE_BOUND <= 10 -> always (request 10) = true ->
     exists w', compute_primes always 10 initial_world = Undefined SignedOverflow w').
Proof.
  apply (no_overflow_below_square_bound always 10 initial_world).
  unfold INT_MIN, INT_MAX. lia.
Defined.

(** ** C7 *)

(** C7: whatever the bound and the world of the first call, if the first
    call returns then a second call with the same bound returns as well,
    makes the same array accesses and prints the same, again leaves no array
    behind, and marks the array at the end of its elimination pass exactly as
    the first did. *)
Theorem compute_primes_repeatable heap limit w0 w1 :
  compute_primes heap limit w0 = Done tt w1 ->
  exists acc out,
    w1 = World None (accesses w0 ++ acc) (stdout w0 ++ out) /\
    compute_primes heap limit w1 =
      Done tt (World None (accesses w1 ++ acc) (stdout w1 ++ out)) /\
    marking (until_eliminated heap limit w1) =
      marking (until_eliminated heap limit w0).
Proof.
  intros Hrun.
  pose proof (compute_primes_in_int _ _ _ _ Hrun) as Hint.
  pose proof (compute_primes_null _ _ _ _ Hrun) as Hnull.
  rewrite (compute_primes_from_scratch heap limit w0 Hint) in Hrun.
  destruct (compute_primes heap limit initial_world) as [[] wr| |] eqn:Efresh;
    try discriminate.
  cbn in Hrun. injection Hrun as <-. cbn in Hnull.
  exists (accesses wr), (stdout wr).
  split; [unfold relog; rewrite Hnull; reflexivity|]. split.
  - rewrite (compute_primes_from_scratch heap limit _ Hint), Efresh.
    cbn. unfold relog. rewrite Hnull. reflexivity.
  - rewrite (until_eliminated_from_scratch heap limit (relog _ _ wr) Hint).
    rewrite (until_eliminated_from_scratch heap limit w0 Hint).
    rewrite !marking_relog. reflexivity.
Qed.

Lemma compute_primes_repeatable_witness :
  exists acc out,
    World None
      [Write 2 true; Write 3 true; Write 4 true; Read 2; Write 4 false]
      [end_program] =
    World None (accesses initial_world ++ acc) (stdout initial_world ++ out) /\
    compute_primes always 4
      (World None
         [Write 2 true; Write 3 true; Write 4 true; Read 2; Write 4 false]
         [end_program]) =
      Done tt
        (World None
           ([Write 2 true; Write 3 true; Write 4 true; Read 2; Write 4 false] ++ acc)
           ([end_program] ++ out)) /\
    marking (until_eliminated always 4
      (World None
         [Write 2 true; Write 3 true; Write 4 true; Read 2; Write 4 false]
         [end_program])) =
      marking (until_eliminated always 4 initial_world).
Proof.
  apply (compute_primes_repeatable always 4 initial_world). reflexivity.
Defined.

(** ** C8 *)

(** C8: for bounds [N <= M], if both runs reach the end of their elimination
    pass, every index reported prime for [N] is reported prime for [M]. *)
Theorem reported_primes_monotone heap N M w0 w0' wN wM (aN aM : list cell) :
  N <= M ->
  until_eliminated heap N w0 = Done true wN -> is_prime wN = Some aN ->
  until_eliminated heap M w0' = Done true wM -> is_prime wM = Some aM ->
  candidates aN N ⊆ candidates aM M.
Proof.
  intros Hle HrunN HaN HrunM HaM i Hi.
  apply elem_of_candidates in Hi. destruct Hi as [Hc Hi].
  apply elem_of_candidates. split; [|lia].
  destruct (sieve_inv heap N w0 wN ltac:(lia) HrunN)
    as (a1 & q1 & Ha1 & Hinv1 & Hq1 & Hqq1).
  destruct (sieve_inv heap M w0' wM ltac:(lia) HrunM)
    as (a2 & q2 & Ha2 & Hinv2 & Hq2 & Hqq2).
  rewrite HaN in Ha1. injection Ha1 as <-.
  rewrite HaM in Ha2. injection Ha2 as <-.
  apply (sieved_prime M q2); [exact Hinv2 | exact Hq2 | lia | lia |].
  apply (sieved_prime N q1 aN i); [exact Hinv1 | exact Hq1 | lia | lia | exact Hc].
Qed.

Lemma reported_primes_monotone_witness :
  candidates
    [Indeterminate; Indeterminate; Flag true; Flag true; Flag false; Flag true] 5
  ⊆ candidates
    [Indeterminate; Indeterminate; Flag true; Flag true; Flag false; Flag true;
     Flag false; Flag true; Flag false; Flag false; Flag false] 10.
Proof.
  eapply (reported_primes_monotone always 5 10 initial_world initial_world);
    [lia | vm_compute; reflexivity | reflexivity
    | vm_compute; reflexivity | reflexivity].
Defined.

(** ** C9 *)

(** C9, as stated, fails at the bound 10: when the call returns there is no
    marking array for the caller to read. *)
Lemma no_mapping_reaches_the_caller :
  ~ (exists w a, compute_primes always 10 initial_world = Done tt w /\
       is_prime w = Some a).
Proof.
  intros (w & a & Hrun & Ha). apply compute_primes_null in Hrun.
  rewrite Hrun in Ha. discriminate Ha.
Qed.

(** C9, amended: on success [compute_primes] returns no value; it releases
    the marking array before it returns, and it prints the completion marker
    once, after the elimination pass, during which nothing is printed. *)
Theorem compute_primes_prints_and_frees heap limit w0 :
  INT_MIN <= limit < SQUARE_BOUND -> heap (request limit) = true ->
  exists w1 a, until_eliminated heap limit w0 = Done true w1 /\
    is_prime w1 = Some a /\ stdout w1 = stdout w0 /\
    compute_primes heap limit w0 =
      Done tt (World None (accesses w1) (stdout w0 ++ [end_program])).
Proof.
  intros Hl Hheap. destruct (Z_lt_le_dec limit 2) as [Hsmall|Hbig].
  - pose proof (until_eliminated_small heap limit w0 ltac:(lia) Hheap) as Hrun.
    eexists _, _. split; [exact Hrun|]. split; [reflexivity|].
    split; [reflexivity|]. apply (compute_primes_after _ _ _ _ Hrun).
  - destruct (sieve_done heap limit w0 ltac:(lia) Hheap)
      as (w1 & a & q & t & Hrun & Ha & _ & _ & _ & _ & _ & Hout).
    exists w1, a. split; [exact Hrun|]. split; [exact Ha|]. split; [exact Hout|].
    rewrite <- Hout. apply (compute_primes_after _ _ _ _ Hrun).
Qed.

Lemma compute_primes_prints_and_frees_witness :
  exists w1 a, until_eliminated always 10 initial_world = Done true w1 /\
    is_prime w1 = Some a /\ stdout w1 = [] /\
    compute_primes always 10 initial_world =
      Done tt (World None (accesses w1) ([] ++ [end_program])).
Proof.
  apply (compute_primes_prints_and_frees always 10 initial_world);
    [unfold INT_MIN, SQUARE_BOUND; lia | reflexivity].
Defined.

(** ** C10 *)

(** C10: for an [int] bound below [SQUARE_BOUND] and a granted allocation the
    call completes, so no access fell outside the block or read a cell never
    written, and every read and write it logged has an index in
    [2..limit], which lies inside the block of [request limit] cells; the
    cells 0 and 1 are neither read nor written. *)
Theorem array_accesses_in_range heap limit w0 :
  INT_MIN <= limit < SQUARE_BOUND -> heap (request limit) = true ->
  exists w t, compute_primes heap limit w0 = Done tt w /\
    accesses w = accesses w0 ++ t /\
    Forall (fun e => 2 <= index_of e <= limit /\
                     0 <= index_of e < request limit) t.
Proof.
  intros Hl Hheap. destruct (Z_lt_le_dec limit 2) as [Hsmall|Hbig].
  - pose proof (until_eliminated_small heap limit w0 ltac:(lia) Hheap) as Hrun.
    eexists _, []. split; [apply (compute_primes_after _ _ _ _ Hrun)|].
    cbn. rewrite app_nil_r. split; [reflexivity | constructor].
  - destruct (sieve_done heap limit w0 ltac:(lia) Hheap)
      as (w1 & a & q & t & Hrun & _ & _ & _ & _ & Hacc & Ht & _).
    eexists _, t. split; [apply (compute_primes_after _ _ _ _ Hrun)|].
    split; [exact Hacc|].
    rewrite request_small by (unfold SQUARE_BOUND, INT_MAX in *; lia).
    eapply Forall_impl; [exact Ht|]. unfold in_range. intros e He. lia.
Qed.

Lemma array_accesses_in_range_witness :
  exists w t, compute_primes always 10 initial_world = Done tt w /\
    accesses w = [] ++ t /\
    Forall (fun e => 2 <= index_of e <= 10 /\ 0 <= index_of e < request 10) t.
Proof.
  apply (array_accesses_in_range always 10 initial_world);
    [unfold INT_MIN, SQUARE_BOUND; lia | reflexivity].
Defined.

(** * Further properties of [compute_primes] and [main] *)

(** ** Runs that return, step by step *)

Lemma bind_done {A B : Type} (m : M A) (k : A -> M B) w b w' :
  bind m k w = Done b w' -> exists a w1, m w = Done a w1 /\ k a w1 = Done b w'.
Proof.
  unfold bind. destruct (m w) as [a w1|u w1|]; try discriminate. eauto.
Qed.

Lemma int_result_done z w z' w' :
  int_result z w = Done z' w' -> z' = z /\ w' = w /\ INT_MIN <= z <= INT_MAX.
Proof.
  unfold int_result. destruct (in_int z) eqn:E; [|discriminate].
  intros [= <- <-]. apply in_int_spec in E. auto.
Qed.

Lemma store_done i b w u w' :
  store i b w = Done u w' ->
  exists a, is_prime w = Some a /\ 0 <= i < Z.of_nat (length a) /\
    w' = World (Some (<[Z.to_nat i := Flag b]> a))
               (accesses w ++ [Write i b]) (stdout w).
Proof.
  unfold store. destruct (is_prime w) as [a|]; [|discriminate].
  destruct (in_block a i) eqn:E; [|discriminate].
  intros [= <-]. apply in_block_spec in E. eauto.
Qed.

Lemma load_done i w b w' :
  load i w = Done b w' ->
  exists a, is_prime w = Some a /\ 0 <= i /\
    w' = World (Some a) (accesses w ++ [Read i]) (stdout w).
Proof.
  unfold load. destruct (is_prime w) as [a|] eqn:Ha; [|discriminate].
  destruct (in_block a i) eqn:E; [|discriminate].
  destruct (a !! Z.to_nat i) as [[|c]|]; try discriminate.
  intros [= <- <-]. apply in_block_spec in E. exists a. split; [reflexivity|].
  split; [lia | reflexivity].
Qed.

Lemma reads_app t1 t2 : reads (t1 ++ t2) = reads t1 ++ reads t2.
Proof.
  induction t1 as [|[i|i b] t1 IH]; cbn; [reflexivity | f_equal; exact IH | exact IH].
Qed.

Lemma reads_writes (t : list access) :
  Forall (fun e => exists i b, e = Write i b) t -> reads t = [].
Proof.
  induction 1 as [|e t (i & b & ->) _ IH]; [reflexivity | exact IH].
Qed.

Lemma square_le_sqrt p limit : 2 <= p -> p * p <= limit <-> p <= Z.sqrt limit.
Proof.
  intros Hp. destruct (Z_lt_le_dec limit 0) as [Hneg|Hpos].
  - rewrite Z.sqrt_neg by exact Hneg. nia.
  - apply Z.sqrt_le_square; lia.
Qed.

(** The inner loop, when it returns: it wrote "eliminated" to indices
    [i + k p <= limit] and kept the length and every cell below [i]. *)
Lemma strike_loop_done fuel : forall limit p i w w' (a : list cell),
  strike_loop fuel limit p i w = Done tt w' ->
  0 < p -> 0 <= i -> is_prime w = Some a ->
  exists a' t, is_prime w' = Some a' /\ length a' = length a /\
    accesses w' = accesses w ++ t /\ stdout w' = stdout w /\
    Forall (fun e => exists k, 0 <= k /\ i + k * p <= limit /\
                               e = Write (i + k * p) false) t /\
    (forall j, 0 <= j < i -> a' !! Z.to_nat j = a !! Z.to_nat j).
Proof.
  induction fuel as [|fuel IH]; intros limit p i w w' a Hrun Hp Hi Ha;
    [discriminate|].
  cbn [strike_loop] in Hrun. destruct (Z.leb_spec i limit) as [Hle|Hgt].
  - apply bind_done in Hrun. destruct Hrun as ([] & w1 & Hstore & Hrun).
    apply store_done in Hstore. destruct Hstore as (a0 & Ha0 & Hin & ->).
    rewrite Ha in Ha0. injection Ha0 as <-.
    apply bind_done in Hrun. destruct Hrun as (i' & w2 & Hadd & Hrun).
    apply int_result_done in Hadd. destruct Hadd as (-> & -> & _).
    destruct (IH _ _ _ _ _ _ Hrun Hp ltac:(lia) eq_refl)
      as (a' & t & Ha' & Hlen & Hacc & Hout & Ht & Hlow).
    exists a', (Write i false :: t).
    split; [exact Ha'|]. split; [rewrite Hlen; apply length_insert|].
    split; [rewrite Hacc; cbn; rewrite <- app_assoc; reflexivity|].
    split; [exact Hout|]. split.
    + constructor.
      * exists 0. split; [lia|]. split; [lia|]. f_equal. ring.
      * eapply Forall_impl; [exact Ht|]. intros e (k & Hk & Hkl & ->).
        exists (k + 1). split; [lia|]. split; [lia|]. f_equal. ring.
    + intros j Hj. rewrite Hlow by lia.
      apply list_lookup_insert_ne. lia.
  - injection Hrun as <-. exists a, []. rewrite app_nil_r.
    split; [exact Ha|]. split; [reflexivity|]. split; [reflexivity|].
    split; [reflexivity|]. split; [constructor|]. intros j _. reflexivity.
Qed.

(** The outer loop, when it returns: it read the flags of [p..sqrt limit] in
    this order, cleared only multiples [i >= q * q] of some [q], and kept the
    length and the cells 0 and 1. *)
Lemma sieve_loop_done inner fuel : forall limit p w w',
  sieve_loop inner fuel limit p w = Done tt w' -> 2 <= p ->
  exists t, accesses w' = accesses w ++ t /\ stdout w' = stdout w /\
    reads t = seqZ p (Z.sqrt limit + 1 - p) /\
    Forall (elimination limit) t /\
    forall a : list cell, is_prime w = Some a ->
      exists a', is_prime w' = Some a' /\ length a' = length a /\
        forall j, 0 <= j < 2 -> a' !! Z.to_nat j = a !! Z.to_nat j.
Proof.
  induction fuel as [|fuel IH]; intros limit p w w' Hrun Hp; [discriminate|].
  cbn [sieve_loop] in Hrun.
  apply bind_done in Hrun. destruct Hrun as (pp & w0 & Hmul & Hrun).
  apply int_result_done in Hmul. destruct Hmul as (-> & -> & _).
  destruct (Z.leb_spec (p * p) limit) as [Hle|Hgt].
  2:{ injection Hrun as <-. exists []. rewrite app_nil_r.
      split; [reflexivity|]. split; [reflexivity|]. split.
      - rewrite seqZ_nil; [reflexivity|].
        assert (~ p <= Z.sqrt limit) by (rewrite <- square_le_sqrt by lia; lia).
        lia.
      - split; [constructor|]. intros a Ha. exists a. auto. }
  apply bind_done in Hrun. destruct Hrun as (c & w1 & Hload & Hrun).
  apply load_done in Hload. destruct Hload as (a0 & Ha0 & _ & ->).
  apply bind_done in Hrun. destruct Hrun as ([] & w2 & Hpass & Hrun).
  apply bind_done in Hrun. destruct Hrun as (p' & w3 & Hadd & Hrun).
  apply int_result_done in Hadd. destruct Hadd as (-> & -> & _).
  destruct (IH _ _ _ _ Hrun ltac:(lia)) as (t & Hacc & Hout & Hreads & Ht & Hcells).
  assert (Hpass' : exists a2 t2, is_prime w2 = Some a2 /\ length a2 = length a0 /\
            accesses w2 = (accesses w ++ [Read p]) ++ t2 /\ stdout w2 = stdout w /\
            Forall (fun e => exists k, 0 <= k /\ p * p + k * p <= limit /\
                                       e = Write (p * p + k * p) false) t2 /\
            (forall j, 0 <= j < 2 -> a2 !! Z.to_nat j = a0 !! Z.to_nat j)).
  { destruct c.
    - apply bind_done in Hpass. destruct Hpass as (i0 & w4 & Hmul & Hpass).
      apply int_result_done in Hmul. destruct Hmul as (-> & -> & _).
      destruct (strike_loop_done _ _ _ _ _ _ _ Hpass ltac:(lia) ltac:(nia) eq_refl)
        as (a2 & t2 & Ha2 & Hl2 & Hacc2 & Hout2 & Ht2 & Hlow).
      exists a2, t2. split; [exact Ha2|]. split; [exact Hl2|].
      split; [exact Hacc2|]. split; [exact Hout2|]. split; [exact Ht2|].
      intros j Hj. apply Hlow. nia.
    - injection Hpass as <-. exists a0, []. rewrite app_nil_r.
      split; [reflexivity|]. split; [reflexivity|]. split; [reflexivity|].
      split; [reflexivity|]. split; [constructor|]. intros j _. reflexivity. }
  destruct Hpass' as (a2 & t2 & Ha2 & Hl2 & Hacc2 & Hout2 & Ht2 & Hlow).
  exists (Read p :: t2 ++ t).
  split; [rewrite Hacc, Hacc2, <- !app_assoc; reflexivity|].
  split; [rewrite Hout; exact Hout2|]. split; [|split].
  - cbn [reads]. rewrite reads_app, Hreads, (reads_writes t2).
    + rewrite (seqZ_cons p) by (apply square_le_sqrt in Hle; lia).
      cbn. do 2 f_equal. unfold Z.succ, Z.pred. f_equal. lia.
    + eapply Forall_impl; [exact Ht2|]. intros e (k & _ & _ & ->). eauto.
  - constructor; [cbn; lia|]. apply Forall_app. split; [|exact Ht].
    eapply Forall_impl; [exact Ht2|]. intros e (k & Hk & Hkl & ->). cbn.
    split; [reflexivity|]. exists p. split; [lia|]. split; [nia|].
    exists (p + k). ring.
  - intros a Ha. rewrite Ha0 in Ha. injection Ha as <-.
    destruct (Hcells a2 Ha2) as (a' & Ha' & Hl' & Hlow').
    exists a'. split; [exact Ha'|]. split; [rewrite Hl'; exact Hl2|].
    intros j Hj. rewrite Hlow' by exact Hj. apply Hlow, Hj.
Qed.

(** A run that reaches the end of the elimination pass passed through these
    stages. *)
Lemma until_eliminated_stages heap limit w0 w :
  until_eliminated heap limit w0 = Done true w ->
  in_int (limit + 1) = true /\ heap (request limit) = true /\
  exists w2,
    initialise limit
      (World (Some (replicate (Z.to_nat (request limit)) Indeterminate))
             (accesses w0) (stdout w0)) = Done tt w2 /\
    eliminate limit w2 = Done tt w.
Proof.
  intros Hrun.
  assert (Hint : in_int (limit + 1) = true).
  { revert Hrun. unfold until_eliminated, allocate, bind, add_int, int_result.
    destruct (in_int (limit + 1)); [reflexivity | discriminate]. }
  split; [exact Hint|]. revert Hrun. unfold until_eliminated, bind.
  rewrite allocate_in_int by exact Hint.
  destruct (heap (request limit)); [|discriminate]. split; [reflexivity|].
  destruct (initialise limit _) as [[] w2|u w2|]; try discriminate.
  destruct (eliminate limit w2) as [[] w3|u w3|] eqn:Eelim; try discriminate.
  injection Hrun as <-. exists w2. auto.
Qed.

(** The log and the low cells of such a run. *)
Lemma run_trace heap limit w0 w :
  until_eliminated heap limit w0 = Done true w ->
  exists t,
    accesses w =
      accesses w0 ++ map (fun i => Write i true) (seqZ 2 (limit - 1)) ++ t /\
    stdout w = stdout w0 /\
    reads t = seqZ 2 (Z.sqrt limit - 1) /\
    Forall (elimination limit) t /\
    (2 <= limit -> exists a, is_prime w = Some a /\
       Z.of_nat (length a) = limit + 1 /\
       forall j, 0 <= j < 2 -> a !! Z.to_nat j = Some Indeterminate).
Proof.
  intros Hrun.
  destruct (until_eliminated_stages _ _ _ _ Hrun) as (Hint & Hheap & w2 & Hinit & Helim).
  apply in_int_spec in Hint. unfold INT_MIN, INT_MAX in Hint.
  destruct (Z_lt_le_dec limit 2) as [Hsmall|Hbig].
  - rewrite initialise_small in Hinit by exact Hsmall. injection Hinit as <-.
    rewrite eliminate_small in Helim by lia. injection Helim as <-.
    assert (Hsqrt : Z.sqrt limit < 2).
    { destruct (Z_lt_le_dec limit 0) as [Hn|Hn];
        [rewrite Z.sqrt_neg by exact Hn; lia|].
      apply Z.sqrt_lt_square; lia. }
    exists []. cbn [accesses stdout reads].
    rewrite (seqZ_nil 2 (limit - 1)), (seqZ_nil 2 (Z.sqrt limit - 1)) by lia.
    cbn. rewrite app_nil_r. split; [reflexivity|]. split; [reflexivity|].
    split; [reflexivity|]. split; [constructor | lia].
  - rewrite request_small in Hinit by (unfold INT_MAX; lia).
    assert (Hwp := initialise_wp limit
             (World (Some (replicate (Z.to_nat (limit + 1)) Indeterminate))
                    (accesses w0) (stdout w0)) _ eq_refl).
    rewrite length_replicate in Hwp.
    specialize (Hwp ltac:(lia) ltac:(unfold INT_MAX; lia)).
    unfold wp in Hwp. rewrite Hinit in Hwp. cbn [is_prime accesses stdout] in Hwp.
    destruct Hwp as (a2 & Ha2 & Hl2 & Hcells & Hacc2 & Hout2).
    destruct (sieve_loop_done _ _ _ _ _ _ Helim ltac:(lia))
      as (t & Hacc & Hout & Hreads & Ht & Hlow).
    destruct (Hlow a2 Ha2) as (a & Ha & Hl & Hlow').
    exists t. split; [|split; [|split; [|split]]].
    + rewrite Hacc, Hacc2, <- app_assoc.
      replace (limit + 1 - 2) with (limit - 1) by lia. reflexivity.
    + rewrite Hout. exact Hout2.
    + rewrite Hreads. f_equal. lia.
    + exact Ht.
    + intros _. exists a. split; [exact Ha|].
      split; [rewrite Hl, Hl2; lia|].
      intros j Hj. rewrite Hlow', Hcells by lia.
      destruct (Z.leb_spec 2 j); [lia|]. cbn.
      apply lookup_replicate. split; [reflexivity | lia].
Qed.

Lemma elimination_clears_composite limit e :
  elimination limit e -> clears_composite limit e.
Proof.
  destruct e as [p|i b]; cbn; [tauto|].
  intros (-> & p & Hp & Hi & Hdiv). split; [reflexivity|]. split; [nia|].
  intros [_ Hprime]. apply (Hprime p); [nia | exact Hdiv].
Qed.

(** ** X1 *)

(** X1: [main] asks for the 1000001 flags of the bound 1000000.  If they are
    granted it prints the completion marker once and nothing else; if they
    are refused it prints nothing.  In both cases it exits with status 0,
    leaves no array allocated, and every array access it made had its index
    in [2..1000000]. *)
Theorem main_behaviour heap :
  exists w, main heap initial_world = Done 0 w /\
    is_prime w = None /\
    stdout w = (if heap 1000001 then [end_program] else []) /\
    Forall (in_range 1000000) (accesses w) /\
    (heap 1000001 = false -> accesses w = []).
Proof.
  unfold main, bind. change 1000001 with (request 1000000).
  destruct (heap (request 1000000)) eqn:Hheap.
  - destruct (sieve_done heap 1000000 initial_world)
      as (w1 & a & q & t & Hrun & _ & _ & _ & _ & Hacc & Ht & Hout);
      [unfold SQUARE_BOUND; lia | exact Hheap |].
    rewrite (compute_primes_after _ _ _ _ Hrun).
    eexists. split; [reflexivity|]. cbn. split; [reflexivity|].
    split; [rewrite Hout; reflexivity|]. split; [|discriminate].
    rewrite Hacc. exact Ht.
  - rewrite compute_primes_refused by
      (try exact Hheap; unfold INT_MIN, INT_MAX; lia).
    eexists. split; [reflexivity|]. cbn. auto.
Qed.

(** ** X2 *)



(** ** X3 *)

(** X3: whenever a run with a bound of at least 2 reaches the end of the
    elimination pass, the array is completely determined: it has
    [limit + 1] cells, the cells 0 and 1 are still indeterminate, and for
    every [i] of [2..limit] the cell [i] is a flag that is set exactly when
    trial division finds [i] prime. *)
Theorem final_marking_exact heap limit w0 w :
  2 <= limit -> until_eliminated heap limit w0 = Done true w ->
  is_prime w = Some (final_marking limit).
Proof.
  intros Hl Hrun.
  destruct (sieve_inv heap limit w0 w Hl Hrun) as (a & q & Ha & Hinv & Hq & Hqq).
  destruct (run_trace heap limit w0 w Hrun) as (t & _ & _ & _ & _ & Hlow).
  destruct (Hlow Hl) as (a' & Ha' & Hlen & Hcells).
  rewrite Ha in Ha'. injection Ha' as <-. rewrite Ha. f_equal.
  apply list_eq. intros [|[|m]].
  - apply (Hcells 0). lia.
  - apply (Hcells 1). lia.
  - unfold final_marking. cbn [lookup list_lookup].
    change (a !! S (S m) = (map (fun i => Flag (trial_division i))
                                (seqZ 2 (limit - 1))) !! m).
    change (map ?f ?l) with (f <$> l). rewrite list_lookup_fmap.
    destruct (Z_lt_le_dec (Z.of_nat m) (limit - 1)) as [Hin|Hout].
    + rewrite lookup_seqZ_lt by exact Hin. cbn [fmap option_fmap option_map].
      destruct (proj2 Hinv (2 + Z.of_nat m) ltac:(lia)) as (b & Hb & _).
      replace (Z.to_nat (2 + Z.of_nat m)) with (S (S m)) in Hb by lia.
      rewrite Hb. do 2 f_equal.
      pose proof (sieved_prime limit q a (2 + Z.of_nat m) Hinv Hq
                    ltac:(lia) ltac:(lia)) as Hprime.
      rewrite <- trial_division_prime in Hprime. unfold candidate in Hprime.
      replace (Z.to_nat (2 + Z.of_nat m)) with (S (S m)) in Hprime by lia.
      rewrite Hb in Hprime.
      destruct b, (trial_division (2 + Z.of_nat m)); try reflexivity;
        destruct Hprime as [H1 H2]; [discriminate (H1 eq_refl) | discriminate (H2 eq_refl)].
    + rewrite lookup_seqZ_ge by exact Hout. cbn.
      apply lookup_ge_None. lia.
Qed.

Lemma final_marking_exact_witness :
  is_prime eliminated_10 = Some (final_marking 10).
Proof.
  apply (final_marking_exact always 10 initial_world eliminated_10);
    [lia | vm_compute; reflexivity].
Defined.

(** ** X4 *)

(** X4: in a run that reaches the end of the elimination pass, the flags the
    function reads are those of 2, 3, ..., [Z.sqrt limit], each once and in
    this order; for a bound below 4 it reads no flag at all. *)
Theorem flags_read_up_to_sqrt heap limit w0 w :
  until_eliminated heap limit w0 = Done true w ->
  exists t, accesses w = accesses w0 ++ t /\
    reads t = seqZ 2 (Z.sqrt limit - 1).
Proof.
  intros Hrun.
  destruct (run_trace heap limit w0 w Hrun) as (t & Hacc & _ & Hreads & _).
  eexists. split; [exact Hacc|].
  rewrite reads_app, Hreads, reads_writes; [reflexivity|].
  apply Forall_fmap, Forall_seqZ. intros i _. cbn. eauto.
Qed.

Lemma flags_read_up_to_sqrt_witness :
  exists t, accesses eliminated_10 = accesses initial_world ++ t /\
    reads t = seqZ 2 (Z.sqrt 10 - 1).
Proof.
  apply (flags_read_up_to_sqrt always 10 initial_world eliminated_10).
  vm_compute. reflexivity.
Defined.

(** ** X5 *)

(** X5: in a run that reaches the end of the elimination pass, the log is
    the writes of "candidate" to 2, 3, ..., [limit] in this order, followed
    only by reads of flags [p] with [p * p <= limit] and by writes of
    "eliminated" to composite indices of [4..limit]: the flag of a prime is
    never cleared, and no flag is set again once the elimination has
    begun. *)
Theorem primes_never_cleared heap limit w0 w :
  until_eliminated heap limit w0 = Done true w ->
  exists t,
    accesses w =
      accesses w0 ++ map (fun i => Write i true) (seqZ 2 (limit - 1)) ++ t /\
    Forall (clears_composite limit) t.
Proof.
  intros Hrun.
  destruct (run_trace heap limit w0 w Hrun) as (t & Hacc & _ & _ & Ht & _).
  exists t. split; [exact Hacc|].
  eapply Forall_impl; [exact Ht|]. apply elimination_clears_composite.
Qed.

Lemma primes_never_cleared_witness :
  exists t,
    accesses eliminated_10 =
      accesses initial_world ++ map (fun i => Write i true) (seqZ 2 (10 - 1)) ++ t /\
    Forall (clears_composite 10) t.
Proof.
  apply (primes_never_cleared always 10 initial_world eliminated_10).
  vm_compute. reflexivity.
Defined.

(** ** X6 *)

(** X6: for a bound below -1 the conversion of [limit + 1] to [size_t] wraps
    around, so the function asks [malloc] for [2 ^ 64 + limit + 1] bytes,
    more than [2 ^ 63]; whatever the answer, it then touches no cell, and it
    prints the completion marker exactly when the request was granted. *)
Theorem negative_bound_requests_huge_block heap limit w :
  INT_MIN <= limit < -1 ->
  request limit = SIZE_MODULUS + limit + 1 /\
  2 ^ 63 < request limit /\
  compute_primes heap limit w =
    Done tt (World None (accesses w)
               (if heap (SIZE_MODULUS + limit + 1)
                then stdout w ++ [end_program] else stdout w)).
Proof.
  intros Hl.
  assert (Hreq : request limit = SIZE_MODULUS + limit + 1).
  { unfold request, size_t_mul, size_t_of_int, sizeof_bool, SIZE_MODULUS.
    unfold INT_MIN in Hl. change (2 ^ 64) with 18446744073709551616.
    rewrite Z.mul_1_r, Z.mod_mod by lia.
    rewrite <- (Z_mod_plus_full (limit + 1) 1 18446744073709551616).
    rewrite Z.mod_small; lia. }
  split; [exact Hreq|]. split.
  - rewrite Hreq. unfold SIZE_MODULUS, INT_MIN in *.
    change (2 ^ 64) with 18446744073709551616.
    change (2 ^ 63) with 9223372036854775808. lia.
  - rewrite <- Hreq. destruct (heap (request limit)) eqn:Hheap.
    + rewrite (compute_primes_after heap limit w _
                 (until_eliminated_small heap limit w ltac:(lia) Hheap)).
      reflexivity.
    + apply compute_primes_refused; [unfold INT_MAX; lia | exact Hheap].
Qed.

Lemma negative_bound_requests_huge_block_witness :
  request (-5) = SIZE_MODULUS + -5 + 1 /\
  2 ^ 63 < request (-5) /\
  compute_primes never (-5) initial_world =
    Done tt (World None (accesses initial_world)
               (if never (SIZE_MODULUS + -5 + 1)
                then stdout initial_world ++ [end_program]
                else stdout initial_world)).
Proof.
  apply (negative_bound_requests_huge_block never (-5) initial_world).
  unfold INT_MIN. lia.
Defined.

(** * Properties of [compute_pi.c] *)

Lemma long_long_ok z : LLONG_MIN <= z <= LLONG_MAX -> long_long z = Returned z.
Proof.
  intros Hz. unfold long_long.
  destruct (Z.leb_spec LLONG_MIN z), (Z.leb_spec z LLONG_MAX); try lia.
  reflexivity.
Qed.

Lemma leibniz_sign_next k : - leibniz_sign k = leibniz_sign (k + 1).
Proof.
  unfold leibniz_sign. rewrite Z.add_1_r, Z.even_succ, <- Z.negb_even.
  destruct (Z.even k); reflexivity.
Qed.

Lemma int_leibniz_sign k : int (leibniz_sign k) = Returned (leibniz_sign k).
Proof. unfold leibniz_sign. destruct (Z.even k); reflexivity. Qed.

Section Series.

Context {D : Type} `{Double D}.

Lemma pi_loop_sums fuel : forall n i (pi : D),
  0 <= i <= n -> n <= 2 ^ 62 -> (Z.to_nat (n - i) < fuel)%nat ->
  pi_loop fuel n i pi (leibniz_sign i) =
  Returned (n, leibniz_from pi i (n - i), leibniz_sign n).
Proof.
  induction fuel as [|fuel IH]; intros n i pi Hi Hn Hfuel; [lia|].
  cbn [pi_loop]. destruct (Z.ltb_spec i n) as [Hlt|Hge].
  - assert (H63 : 2 ^ 62 = 4611686018427387904) by reflexivity.
    unfold andthen.
    rewrite !long_long_ok
      by (unfold LLONG_MIN, LLONG_MAX;
          change (2 ^ 63) with 9223372036854775808; lia).
    rewrite leibniz_sign_next, int_leibniz_sign.
    rewrite IH by lia.
    unfold leibniz_from. rewrite (seqZ_cons i (n - i)) by lia.
    replace (Z.succ i) with (i + 1) by lia.
    replace (Z.pred (n - i)) with (n - (i + 1)) by lia.
    reflexivity.
  - assert (i = n) as -> by lia.
    unfold leibniz_from. rewrite Z.sub_diag, seqZ_nil by lia. reflexivity.
Qed.

End Series.

(** The loop as [main] enters it. *)
Lemma pi_loop_from_start {D : Type} `{Double D} n :
  LLONG_MIN <= n <= 2 ^ 62 ->
  pi_loop (S (Z.to_nat n)) n 0 d_0_0 1 =
  Returned (Z.max 0 n, leibniz n, leibniz_sign (Z.max 0 n)).
Proof.
  intros Hn. destruct (Z_lt_le_dec n 0) as [Hneg|Hpos].
  - cbn [pi_loop]. destruct (Z.ltb_spec 0 n); [lia|].
    rewrite Z.max_l by lia. unfold leibniz, leibniz_from.
    rewrite seqZ_nil by lia. reflexivity.
  - rewrite Z.max_r by lia.
    pose proof (pi_loop_sums (S (Z.to_nat n)) n 0 d_0_0) as Hsum.
    change (leibniz_sign 0) with 1 in Hsum.
    rewrite Hsum by lia. unfold leibniz. rewrite Z.sub_0_r. reflexivity.
Qed.

(** ** X7 *)

(** X7: whatever the arithmetic of [double] is, for a count [n] of at most
    [2 ^ 62] the loop of [compute_pi.c], entered as [main] enters it, runs
    without integer overflow and returns.  For [n >= 0] it leaves [i = n],
    the sum [0.0 + 4/1 - 4/3 + 4/5 - ...] of the [n] first Leibniz terms,
    added in this order, each with the sign [+] for an even and [-] for an
    odd index, and the sign of the next term; for [n <= 0] it does
    nothing. *)
Theorem pi_loop_leibniz {D : Type} `{Double D} n :
  LLONG_MIN <= n <= 2 ^ 62 ->
  pi_loop (S (Z.to_nat n)) n 0 d_0_0 1 =
  Returned (Z.max 0 n, leibniz n, leibniz_sign (Z.max 0 n)).
Proof. apply pi_loop_from_start. Qed.

Lemma pi_loop_leibniz_witness :
  @pi_loop Q exact_double (S (Z.to_nat 3)) 3 0 (@d_0_0 Q exact_double) 1 =
  Returned (Z.max 0 3, @leibniz Q exact_double 3, leibniz_sign (Z.max 0 3)).
Proof.
  apply (@pi_loop_leibniz Q exact_double 3).
  unfold LLONG_MIN. change (2 ^ 63) with 9223372036854775808.
  change (2 ^ 62) with 4611686018427387904. lia.
Defined.

Example leibniz_3_exact : (@leibniz Q exact_double 3 == 52 # 15)%Q.
Proof. vm_compute. reflexivity. Qed.

(** ** X8 *)

(** X8: whatever the arithmetic of [double] is, the program of
    [compute_pi.c] prints its prompt, then one line formatted from the sum
    of the first 1000000 Leibniz terms, and exits with status 0; no integer
    operation of it overflows. *)
Theorem pi_main_prints_leibniz {D : Type} `{Double D} :
  pi_main = Returned ([Text pi_prompt; Formatted pi_format (leibniz 1000000)], 0).
Proof.
  unfold pi_main. rewrite pi_loop_from_start; [reflexivity|].
  unfold LLONG_MIN. change (2 ^ 63) with 9223372036854775808.
  change (2 ^ 62) with 4611686018427387904. lia.
Qed.
